(** * The interactive build dashboard of sanic (pkg/build/interactive_interface.go)

    A shallow embedding of the job registry, the job life-cycle calls, the
    screen layout of [redrawScreen] and the summary printed by [Close],
    followed by the properties of the specification that were checked
    against it.

    Conventions.
    - A Go [string] is a sequence of bytes: Rocq's [string].
    - A Go [int] is a [Z]; the sizes met here are far from the 64-bit bound.
    - [map[string]*interactiveInterfaceJob] is a [gmap]; every pointer in the
      map is created by [StartJob] and stored under one key only, so updating
      the job a pointer designates is updating the entry of that key.
    - [range] over a Go map visits every entry once, in an order the runtime
      chooses anew each time: a loop over the map takes the enumeration it
      follows as an argument ([enumerates]).
    - Panics, deferred calls and [recover] are written with a small state and
      error monad ([M]); the mutex is a boolean, and locking a held mutex is
      the outcome [Deadlock].
    - A value of the interface type [error] is nil or an error that has a
      text: calling [Error] on the nil one is the run-time panic of a nil
      dereference. *)

From Stdlib Require Import ZArith String Ascii List Lia DecimalString.
From Stdlib Require OrderedTypeEx.
From stdpp Require Import base gmap strings list sorting.

Open Scope Z_scope.

(** ** Go strings: runes, strings.TrimSpace, strings.Join, %d *)

Module GoString.

Definition rune := Z.

(** utf8.RuneError, the value a byte that starts no valid encoding decodes to. *)
Definition RuneError : rune := 65533.

Definition byte_val (c : ascii) : Z := Z.of_N (N_of_ascii c).

Definition between (lo hi x : Z) : bool := (lo <=? x) && (x <=? hi).

Definition str1 (a : ascii) : string := String a EmptyString.
Definition str2 (a b : ascii) : string := String a (str1 b).
Definition str3 (a b c : ascii) : string := String a (str2 b c).
Definition str4 (a b c d : ascii) : string := String a (str3 b c d).

(** The second byte Go's decoder accepts after the first byte [b0] of a
    three- or four-byte encoding (utf8's accept ranges). *)
Definition second_ok (b0 b1 : Z) : bool :=
  if b0 =? 224 then between 160 191 b1
  else if b0 =? 237 then between 128 159 b1
  else if b0 =? 240 then between 144 191 b1
  else if b0 =? 244 then between 128 143 b1
  else between 128 191 b1.

(** utf8.DecodeRuneInString on the string [String c0 s1]: the first rune
    and the bytes it was read from. A byte that starts no valid encoding
    yields [RuneError] and is consumed alone. *)
Definition DecodeRuneInString (c0 : ascii) (s1 : string) : rune * string :=
  let b0 := byte_val c0 in
  let invalid := (RuneError, str1 c0) in
  if b0 <? 128 then (b0, str1 c0)
  else
    match s1 with
    | EmptyString => invalid
    | String c1 s2 =>
      let b1 := byte_val c1 in
      if between 194 223 b0 then
        if between 128 191 b1
        then ((b0 - 192) * 64 + (b1 - 128), str2 c0 c1)
        else invalid
      else
        match s2 with
        | EmptyString => invalid
        | String c2 s3 =>
          let b2 := byte_val c2 in
          if between 224 239 b0 then
            if second_ok b0 b1 && between 128 191 b2
            then ((b0 - 224) * 4096 + (b1 - 128) * 64 + (b2 - 128), str3 c0 c1 c2)
            else invalid
          else
            match s3 with
            | EmptyString => invalid
            | String c3 s4 =>
              let b3 := byte_val c3 in
              if between 240 244 b0 then
                if second_ok b0 b1 && between 128 191 b2 && between 128 191 b3
                then ((b0 - 240) * 262144 + (b1 - 128) * 4096
                      + (b2 - 128) * 64 + (b3 - 128),
                      str4 c0 c1 c2 c3)
                else invalid
              else invalid
            end
        end
    end.

(** The runes of a string in order, as [for _, r := range s] and [[]rune(s)]
    meet them, each with its bytes; [skip] counts the bytes of the current
    rune still to pass over. *)
Fixpoint decode_from (skip : nat) (s : string) : list (rune * string) :=
  match s with
  | EmptyString => []
  | String c0 s1 =>
    match skip with
    | S k => decode_from k s1
    | O =>
      let d := DecodeRuneInString c0 s1 in
      d :: decode_from (String.length d.2 - 1) s1
    end
  end.

Definition decode (s : string) : list (rune * string) := decode_from 0 s.

(** [[]rune(s)] *)
Definition runes (s : string) : list rune := (decode s).*1.

(** unicode.IsSpace *)
Definition IsSpace (r : rune) : bool :=
  between 9 13 r || (r =? 32) || (r =? 133) || (r =? 160) || (r =? 5760)
  || between 8192 8202 r || (r =? 8232) || (r =? 8233) || (r =? 8239)
  || (r =? 8287) || (r =? 12288).

Fixpoint drop_while {A} (p : A -> bool) (l : list A) : list A :=
  match l with
  | [] => []
  | x :: l' => if p x then drop_while p l' else l
  end.

Definition chunk_is_space (c : rune * string) : bool := IsSpace c.1.

Fixpoint concat_chunks (l : list (rune * string)) : string :=
  match l with
  | [] => EmptyString
  | c :: l' => c.2 +:+ concat_chunks l'
  end.

(** strings.TrimSpace: the slice of [s] left after removing the leading and
    the trailing runes for which unicode.IsSpace holds. *)
Definition TrimSpace (s : string) : string :=
  concat_chunks
    (rev (drop_while chunk_is_space (rev (drop_while chunk_is_space (decode s))))).

(** strings.Join *)
Definition Join (elems : list string) (sep : string) : string :=
  String.concat sep elems.

(** The verb %d of fmt applied to an int. *)
Definition fmt_d (n : Z) : string := NilZero.string_of_int (Z.to_int n).

End GoString.
Import GoString.

(** ** util.StringRingBuffer *)

(** Modelled from the spec: pkg/util's StringRingBuffer is not among the
    sources. The specification gives it a fixed capacity; [Push] appends a
    line and evicts the oldest one when the buffer is full; [Peek k] returns
    the last [min k size] lines in arrival order and leaves the buffer as it
    is. The lines are kept oldest first. *)
Record StringRingBuffer := mkRing {
  rb_capacity : nat;
  rb_lines : list string
}.

Definition CreateStringRingBuffer (capacity : nat) : StringRingBuffer :=
  {| rb_capacity := capacity; rb_lines := [] |}.

Definition Push (line : string) (b : StringRingBuffer) : StringRingBuffer :=
  let l := rb_lines b ++ [line] in
  {| rb_capacity := rb_capacity b;
     rb_lines := drop (length l - rb_capacity b)%nat l |}.

Definition Peek (k : Z) (b : StringRingBuffer) : list string :=
  drop (length (rb_lines b) - Z.to_nat k)%nat (rb_lines b).

(** ** The data of the dashboard *)

Record interactiveInterfaceJob := mkJob {
  lastLogLines : StringRingBuffer;
  linesDisplayed : Z;
  status : string;
  pushing : bool;
  image : string;
  service : string
}.

(** tcell.Color and tcell.Style, as far as the dashboard uses them. *)
Inductive Color := NewRGBColor (r g b : Z).

Record Style := mkStyle { style_fg : option Color }.

Definition StyleDefault : Style := {| style_fg := None |}.

Definition Foreground (c : Color) (s : Style) : Style := {| style_fg := Some c |}.

(** The terminal backend (tcell.Screen) is an external collaborator. What the
    dashboard does to it is the sequence of calls it completes; [scr_fault]
    is the backend's way to fail: [Some (n, r)] makes the call after the next
    [n] ones panic with the value [r]. *)
Inductive call :=
| CallSize
| CallSetContent (x y : Z) (mainc : rune) (combc : list rune) (style : Style)
| CallShow
| CallSync
| CallFini.

Record Screen := mkScreen {
  scr_width : Z;
  scr_height : Z;
  scr_calls : list call;
  scr_fault : option (nat * string)
}.

Record interactiveInterface := mkIface {
  jobs : gmap string interactiveInterfaceJob;
  mutex : bool;
  screen : Screen;
  screenStyle : Style;
  cancelled : bool;
  running : bool;
  cancelListeners : list nat;
  (* not a field of the Go struct: what fmt.Printf has written to the
     standard output of the process, one element per call *)
  stdout : list string
}.

Definition set_jobs (f : gmap string interactiveInterfaceJob -> gmap string interactiveInterfaceJob)
    (s : interactiveInterface) : interactiveInterface :=
  mkIface (f (jobs s)) (mutex s) (screen s) (screenStyle s) (cancelled s)
          (running s) (cancelListeners s) (stdout s).

Definition set_mutex (b : bool) (s : interactiveInterface) : interactiveInterface :=
  mkIface (jobs s) b (screen s) (screenStyle s) (cancelled s)
          (running s) (cancelListeners s) (stdout s).

Definition set_screen (f : Screen -> Screen) (s : interactiveInterface) : interactiveInterface :=
  mkIface (jobs s) (mutex s) (f (screen s)) (screenStyle s) (cancelled s)
          (running s) (cancelListeners s) (stdout s).

Definition set_cancelled (b : bool) (s : interactiveInterface) : interactiveInterface :=
  mkIface (jobs s) (mutex s) (screen s) (screenStyle s) b
          (running s) (cancelListeners s) (stdout s).

Definition set_running (b : bool) (s : interactiveInterface) : interactiveInterface :=
  mkIface (jobs s) (mutex s) (screen s) (screenStyle s) (cancelled s)
          b (cancelListeners s) (stdout s).

Definition set_cancelListeners (f : list nat -> list nat) (s : interactiveInterface)
    : interactiveInterface :=
  mkIface (jobs s) (mutex s) (screen s) (screenStyle s) (cancelled s)
          (running s) (f (cancelListeners s)) (stdout s).

Definition set_stdout (f : list string -> list string) (s : interactiveInterface)
    : interactiveInterface :=
  mkIface (jobs s) (mutex s) (screen s) (screenStyle s) (cancelled s)
          (running s) (cancelListeners s) (f (stdout s)).

Definition set_status (v : string) (j : interactiveInterfaceJob) : interactiveInterfaceJob :=
  mkJob (lastLogLines j) (linesDisplayed j) v (pushing j) (image j) (service j).

Definition set_pushing (v : bool) (j : interactiveInterfaceJob) : interactiveInterfaceJob :=
  mkJob (lastLogLines j) (linesDisplayed j) (status j) v (image j) (service j).

Definition set_lastLogLines (f : StringRingBuffer -> StringRingBuffer)
    (j : interactiveInterfaceJob) : interactiveInterfaceJob :=
  mkJob (f (lastLogLines j)) (linesDisplayed j) (status j) (pushing j) (image j) (service j).

(** ** Control: panics, defer, recover, the mutex *)

Inductive result (A : Type) :=
| Ok (a : A)
| Panic (r : string)
| Deadlock.

Arguments Ok {A} a.
Arguments Panic {A} r.
Arguments Deadlock {A}.

(** A computation runs on the dashboard and leaves it in some state whatever
    its outcome: a panic unwinds the stack, it does not undo assignments. *)
Definition M (A : Type) : Type := interactiveInterface -> result A * interactiveInterface.

Definition ret {A} (a : A) : M A := fun s => (Ok a, s).

Definition bind {A B} (m : M A) (k : A -> M B) : M B :=
  fun s =>
    match m s with
    | (Ok a, s') => k a s'
    | (Panic r, s') => (Panic r, s')
    | (Deadlock, s') => (Deadlock, s')
    end.

Declare Scope go_scope.
Delimit Scope go_scope with go.
Notation "x <- m ;; k" := (bind m (fun x => k))
  (at level 100, m at next level, right associativity) : go_scope.
Notation "m ;; k" := (bind m (fun _ => k))
  (at level 100, right associativity) : go_scope.
Open Scope go_scope.

Definition get : M interactiveInterface := fun s => (Ok s, s).

Definition modify (f : interactiveInterface -> interactiveInterface) : M unit :=
  fun s => (Ok tt, f s).

Definition panic {A} (r : string) : M A := fun s => (Panic r, s).

(** [defer d body]: the statement [defer d()] followed by [body]. The deferred
    call runs when the body returns and when it panics; a panic of the
    deferred call replaces the one in flight. *)
Definition defer {A} (d : M unit) (body : M A) : M A :=
  fun s =>
    match body s with
    | (Ok a, s1) =>
      match d s1 with
      | (Ok _, s2) => (Ok a, s2)
      | (Panic r, s2) => (Panic r, s2)
      | (Deadlock, s2) => (Deadlock, s2)
      end
    | (Panic r, s1) =>
      match d s1 with
      | (Ok _, s2) => (Panic r, s2)
      | (Panic r', s2) => (Panic r', s2)
      | (Deadlock, s2) => (Deadlock, s2)
      end
    | (Deadlock, s1) => (Deadlock, s1)
    end.

(** [defer func() { r := recover(); if r != nil { h(r) } }()] followed by
    [body]: without a panic the deferred function does nothing; with one, the
    panic is stopped and [h] runs; if [h] returns, so does the function. *)
Definition defer_recover (h : string -> M unit) (body : M unit) : M unit :=
  fun s =>
    match body s with
    | (Ok a, s1) => (Ok a, s1)
    | (Panic r, s1) => h r s1
    | (Deadlock, s1) => (Deadlock, s1)
    end.

Fixpoint foreach {A} (l : list A) (f : A -> M unit) : M unit :=
  match l with
  | [] => ret tt
  | x :: l' => f x ;; foreach l' f
  end.

(** sync.Mutex. Unlocking a mutex that is not held is a run-time error. *)
Definition Lock : M unit :=
  fun s => if mutex s then (Deadlock, s) else (Ok tt, set_mutex true s).

Definition Unlock : M unit :=
  fun s => if mutex s then (Ok tt, set_mutex false s)
           else (Panic "sync: unlock of unlocked mutex", s).

(** ** The calls to the terminal backend *)

Definition record_call (c : call) (fault : option (nat * string)) (scr : Screen) : Screen :=
  mkScreen (scr_width scr) (scr_height scr) (scr_calls scr ++ [c]) fault.

Definition clear_fault (scr : Screen) : Screen :=
  mkScreen (scr_width scr) (scr_height scr) (scr_calls scr) None.

Definition backend (c : call) : M unit :=
  fun s =>
    match scr_fault (screen s) with
    | Some (O, r) => (Panic r, set_screen clear_fault s)
    | Some (S n, r) => (Ok tt, set_screen (record_call c (Some (n, r))) s)
    | None => (Ok tt, set_screen (record_call c None) s)
    end.

Definition Size : M (Z * Z) :=
  backend CallSize ;;
  s <- get ;;
  ret (scr_width (screen s), scr_height (screen s)).

Definition SetContent (x y : Z) (mainc : rune) (combc : list rune) (style : Style) : M unit :=
  backend (CallSetContent x y mainc combc style).

Definition Show : M unit := backend CallShow.

Definition Sync : M unit := backend CallSync.

(** Teardown is taken to succeed: the failures studied are those of the
    calls that draw. *)
Definition Fini : M unit :=
  modify (fun s => set_screen (record_call CallFini (scr_fault (screen s))) s).

Definition Printf (text : string) : M unit :=
  modify (set_stdout (fun out => out ++ [text])).

(** ** The job life cycle *)

Definition StartJob (service image : string) : M unit :=
  Lock ;;
  defer Unlock
    (modify (set_jobs (insert service
       {| service := service;
          image := image;
          lastLogLines := CreateStringRingBuffer 20;
          linesDisplayed := 0;
          status := "";
          pushing := false |}))).

Definition ProcessLog (service logLine : string) : M unit :=
  Lock ;;
  defer Unlock
    (s <- get ;;
     match jobs s !! service with
     | None => panic ("Could not find service: " +:+ service)
     | Some job =>
       let logLine := TrimSpace logLine in
       if decide (logLine <> "")
       then modify (set_jobs (insert service (set_lastLogLines (Push logLine) job)))
       else ret tt
     end).

(** A value of type [error]: [None] is nil, [Some text] an error whose
    [Error] method returns [text]. *)
Definition error := option string.

(** The value the run time panics with when a method is called on a nil
    interface value. *)
Definition nil_dereference : string :=
  "runtime error: invalid memory address or nil pointer dereference".

(** [err.Error()]. *)
Definition Error (err : error) : M string :=
  match err with
  | Some text => ret text
  | None => panic nil_dereference
  end.

(** The argument ["Error! " + err.Error()] is evaluated before [ProcessLog]
    is called. *)
Definition FailJob (service : string) (err : error) : M unit :=
  text <- Error err ;;
  ProcessLog service ("Error! " +:+ text) ;;
  Lock ;;
  defer Unlock
    (s <- get ;;
     match jobs s !! service with
     | Some job => modify (set_jobs (insert service (set_status "failed" job)))
     | None => ret tt
     end).

Definition SucceedJob (service : string) : M unit :=
  Lock ;;
  defer Unlock
    (s <- get ;;
     match jobs s !! service with
     | Some job => modify (set_jobs (insert service (set_status "succeeded" job)))
     | None => ret tt
     end).

Definition SetPushing (service : string) : M unit :=
  Lock ;;
  defer Unlock
    (s <- get ;;
     match jobs s !! service with
     | Some job => modify (set_jobs (insert service (set_pushing true job)))
     | None => ret tt
     end).

(** A listener is a closure of the caller; the dashboard only stores it. *)
Definition AddCancelListener (cancelFunc : nat) : M unit :=
  modify (set_cancelListeners (fun l => l ++ [cancelFunc])).

(** ** Close *)

(** [order ≡ₚ map_to_list m]: [order] is one of the enumerations a [range]
    over the map [m] may follow. *)
Definition enumerates (order : list (string * interactiveInterfaceJob))
    (m : gmap string interactiveInterfaceJob) : Prop :=
  order ≡ₚ map_to_list m.

(** One iteration of the loop of [Close], on the three slices it appends to:
    serviceLogDirs, serviceImages, failedJobs. *)
Definition close_step (acc : list string * list string * list string)
    (e : string * interactiveInterfaceJob) : list string * list string * list string :=
  let '(serviceLogDirs, serviceImages, failedJobs) := acc in
  let '(jobName, job) := e in
  (serviceLogDirs ++ ["logs/" +:+ jobName +:+ ".log"],
   serviceImages ++ [image job],
   if decide (status job <> "succeeded") then failedJobs ++ [jobName] else failedJobs).

Definition close_loop (order : list (string * interactiveInterfaceJob))
    : list string * list string * list string :=
  foldl close_step ([], [], []) order.

Definition failure_summary (failedJobs : list string) : string :=
  "Failed to build the following jobs: " +:+ Join failedJobs ", "
  +:+ String "010" "See the logs folder for details." +:+ String "010" "".

Definition success_summary (serviceImages : list string) : string :=
  "Successfully built: " +:+ Join serviceImages " " +:+ String "010" "".

Definition Close (order : list (string * interactiveInterfaceJob)) : M unit :=
  Lock ;;
  defer Unlock
    (modify (set_running false) ;;
     Fini ;;
     let '(serviceLogDirs, serviceImages, failedJobs) := close_loop order in
     s <- get ;;
     if negb (cancelled s) then
       if decide (0 < Z.of_nat (length failedJobs))
       then Printf (failure_summary failedJobs)
       else Printf (success_summary serviceImages)
     else ret tt).

(** ** redrawScreen *)

(** The loop that sorts the jobs into the three slices. *)
Definition classify_step
    (acc : list interactiveInterfaceJob * list interactiveInterfaceJob * list interactiveInterfaceJob)
    (e : string * interactiveInterfaceJob)
    : list interactiveInterfaceJob * list interactiveInterfaceJob * list interactiveInterfaceJob :=
  let '(succeededJobs, failedJobs, currJobs) := acc in
  let job := e.2 in
  if decide (status job = "succeeded") then (succeededJobs ++ [job], failedJobs, currJobs)
  else if decide (status job = "failed") then (succeededJobs, failedJobs ++ [job], currJobs)
  else (succeededJobs, failedJobs, currJobs ++ [job]).

Definition classify (order : list (string * interactiveInterfaceJob))
    : list interactiveInterfaceJob * list interactiveInterfaceJob * list interactiveInterfaceJob :=
  foldl classify_step ([], [], []) order.

(** The comparison given to sort.Slice: Go's [<] on strings compares them
    byte by byte. *)
Definition less (a b : interactiveInterfaceJob) : bool :=
  String.ltb (service a) (service b).

(** sort.Slice is modelled by an insertion sort. It makes no promise on the
    order of elements that compare equal; the jobs of a registry have
    distinct [service] fields ([registry_ok]). *)
Fixpoint insert_job (j : interactiveInterfaceJob) (l : list interactiveInterfaceJob)
    : list interactiveInterfaceJob :=
  match l with
  | [] => [j]
  | x :: l' => if less j x then j :: l else x :: insert_job j l'
  end.

Definition sortJobs (l : list interactiveInterfaceJob) : list interactiveInterfaceJob :=
  foldr insert_job [] l.

(** The calls [displayAndTruncateString] makes: the first [width] runes of
    [s] on row [y], then blanks up to the width. *)
Definition displayAndTruncateString (width y : Z) (s : string) (style : Style) : M unit :=
  let runes := runes s in
  foreach (imap (fun i r => (Z.of_nat i, r)) (take (Z.to_nat width) runes))
          (fun c => SetContent c.1 y c.2 [] style) ;;
  foreach (seqZ (Z.of_nat (length runes)) (width - Z.of_nat (length runes)))
          (fun i => SetContent i y 32 [] style).

(** Go's [/] on ints truncates toward zero. *)
Definition linesPerJob (height numFailedAndBuilding : Z) : Z :=
  let l := Z.quot (height - 1) numFailedAndBuilding in
  if decide (l < 2) then 2 else l.

Definition numRemainderLines (height numFailedAndBuilding : Z) : Z :=
  height - 1 - linesPerJob height numFailedAndBuilding * numFailedAndBuilding.

(** What one iteration of a job loop decides before it draws: the job, the
    row of its header, the header, the argument of [Peek] and the lines
    [Peek] returns. *)
Record block := mkBlock {
  blk_job : interactiveInterfaceJob;
  blk_row : Z;
  blk_header : string;
  blk_logLinesToDisplay : Z;
  blk_lines : list string
}.

(** The two job loops of [redrawScreen] differ in the header and in its
    style only. Their arithmetic does not depend on the backend: it is done
    here, from [currRenderLine] and [numRemainderLines] at the entry of the
    loop to their values at its exit, and the blocks are drawn by
    [draw_block] in the order of the source's calls. *)
Fixpoint render_jobs (header : interactiveInterfaceJob -> string) (height linesPerJob : Z)
    (js : list interactiveInterfaceJob) (currRenderLine numRemainderLines : Z)
    : list block * Z * Z :=
  match js with
  | [] => ([], currRenderLine, numRemainderLines)
  | job :: rest =>
    if decide (currRenderLine + 1 >= height - 2)
    then ([], currRenderLine, numRemainderLines)
    else
      let logLinesToDisplay := linesPerJob - 1 in
      let '(logLinesToDisplay, numRemainderLines) :=
        if decide (numRemainderLines > 0)
        then (logLinesToDisplay + 1, numRemainderLines - 1)
        else (logLinesToDisplay, numRemainderLines) in
      let lines := Peek logLinesToDisplay (lastLogLines job) in
      let '(blocks, c, r) :=
        render_jobs header height linesPerJob rest
          (currRenderLine + 1 + Z.of_nat (length lines)) numRemainderLines in
      (mkBlock job currRenderLine (header job) logLinesToDisplay lines :: blocks, c, r)
  end.

Definition draw_block (width : Z) (headerStyle lineStyle : Style) (b : block) : M unit :=
  displayAndTruncateString width (blk_row b) (blk_header b) headerStyle ;;
  foreach (imap (fun i logLine => (blk_row b + 1 + Z.of_nat i, logLine)) (blk_lines b))
          (fun c => displayAndTruncateString width c.1 c.2 lineStyle).

Definition failed_header (job : interactiveInterfaceJob) : string :=
  "[failed] " +:+ image job.

Definition curr_header (job : interactiveInterfaceJob) : string :=
  (if pushing job then "[building/pushing]" else "[building]") +:+ " " +:+ image job.

Definition summary_line (numFailed numSucceeded numCurr numJobs : Z) : string :=
  fmt_d numFailed +:+ "/" +:+ fmt_d numJobs +:+ " failed, "
  +:+ fmt_d numSucceeded +:+ "/" +:+ fmt_d numJobs +:+ " completed, "
  +:+ fmt_d numCurr +:+ "/" +:+ fmt_d numJobs +:+ " building".

Definition len {A} (l : list A) : Z := Z.of_nat (length l).

(** The body of [redrawScreen] from the classification on, under the lock. *)
Definition redraw_locked (order : list (string * interactiveInterfaceJob))
    (width height : Z) : M unit :=
  s <- get ;;
  let '(succeededJobs, failedJobs, currJobs) := classify order in
  let succeededJobs := sortJobs succeededJobs in
  let failedJobs := sortJobs failedJobs in
  let currJobs := sortJobs currJobs in
  let numFailedAndBuilding := len failedJobs + len currJobs in
  if decide (numFailedAndBuilding = 0) then ret tt
  else
    let currRenderLine := 0 in
    let linesPerJob := linesPerJob height numFailedAndBuilding in
    let numRemainderLines := numRemainderLines height numFailedAndBuilding in
    let failureStyle := Foreground (NewRGBColor 190 0 0) (screenStyle s) in
    let '(failedBlocks, currRenderLine, numRemainderLines) :=
      render_jobs failed_header height linesPerJob failedJobs
                  currRenderLine numRemainderLines in
    foreach failedBlocks (draw_block width failureStyle (screenStyle s)) ;;
    let currStyle := Foreground (NewRGBColor 190 190 0) (screenStyle s) in
    let '(currBlocks, currRenderLine, numRemainderLines) :=
      render_jobs curr_header height linesPerJob currJobs
                  currRenderLine numRemainderLines in
    foreach currBlocks (draw_block width currStyle (screenStyle s)) ;;
    let numJobs := len currJobs + len failedJobs + len succeededJobs in
    let statusStyle := Foreground (NewRGBColor 190 190 190) (screenStyle s) in
    displayAndTruncateString width (height - 1)
      (summary_line (len failedJobs) (len succeededJobs) (len currJobs) numJobs)
      statusStyle ;;
    Show.

(** [redrawScreen] without its first deferred function. *)
Definition redraw_unprotected (order : list (string * interactiveInterfaceJob)) : M unit :=
  size <- Size ;;
  Lock ;;
  defer Unlock (redraw_locked order size.1 size.2).

(** [order] is the enumeration the classification loop follows and
    [close_order] the one the loop of [Close] follows, should the deferred
    function call it. *)
Definition redrawScreen (order close_order : list (string * interactiveInterfaceJob))
    : M unit :=
  defer_recover (fun r => Close close_order ;; panic r) (redraw_unprotected order).

(** ** The two background loops, one turn at a time *)

(** A turn of the loop [for iface.running { iface.redrawScreen(); ... }]. *)
Definition redraw_tick (order close_order : list (string * interactiveInterfaceJob))
    : M unit :=
  s <- get ;;
  if running s then redrawScreen order close_order else ret tt.

(** The event loop on a resize event. *)
Definition on_resize (order close_order : list (string * interactiveInterfaceJob))
    : M unit :=
  redrawScreen order close_order ;; Sync.

(** The event loop on Ctrl-C, Esc or Exit; the listeners called are code of
    the caller. *)
Definition on_cancel_key : M unit :=
  modify (set_cancelled true).

(** The state [NewInteractiveInterface] returns, on the screen it created. *)
Definition NewInteractiveInterface (scr : Screen) : interactiveInterface :=
  {| jobs := ∅; mutex := false; screen := scr; screenStyle := StyleDefault;
     cancelled := false; running := true; cancelListeners := []; stdout := [] |}.

(** The operations of the dashboard, and runs of them one after the other. *)
Inductive op :=
| OpStartJob (service image : string)
| OpFailJob (service : string) (err : error)
| OpSucceedJob (service : string)
| OpSetPushing (service : string)
| OpProcessLog (service logLine : string)
| OpAddCancelListener (cancelFunc : nat)
| OpClose (order : list (string * interactiveInterfaceJob))
| OpRedrawTick (order close_order : list (string * interactiveInterfaceJob))
| OpResize (order close_order : list (string * interactiveInterfaceJob))
| OpCancelKey.

Definition exec (o : op) : M unit :=
  match o with
  | OpStartJob service image => StartJob service image
  | OpFailJob service err => FailJob service err
  | OpSucceedJob service => SucceedJob service
  | OpSetPushing service => SetPushing service
  | OpProcessLog service logLine => ProcessLog service logLine
  | OpAddCancelListener f => AddCancelListener f
  | OpClose order => Close order
  | OpRedrawTick order close_order => redraw_tick order close_order
  | OpResize order close_order => on_resize order close_order
  | OpCancelKey => on_cancel_key
  end.

Definition run (ops : list op) : M unit := foreach ops exec.

(** A screen of the given size that never fails. *)
Definition plain_screen (width height : Z) : Screen :=
  mkScreen width height [] None.

Definition demo : interactiveInterface :=
  Eval vm_compute in
  (run [OpStartJob "A" "img-a"; OpStartJob "B" "img-b"; OpStartJob "C" "img-c";
        OpProcessLog "C" "  Step 1/4 : FROM scratch  ";
        OpFailJob "A" (Some "boom"); OpSucceedJob "B"]
       (NewInteractiveInterface (plain_screen 12 8))).2.


(** The state [Close] leaves when the mutex is free. *)
Definition close_state (order : list (string * interactiveInterfaceJob))
    (s : interactiveInterface) : interactiveInterface :=
  let s1 := set_screen (record_call CallFini (scr_fault (screen s))) (set_running false s) in
  if cancelled s then s1
  else
    let '(_, serviceImages, failedJobs) := close_loop order in
    set_stdout (fun out => out ++ [if decide (0 < len failedJobs)
                                   then failure_summary failedJobs
                                   else success_summary serviceImages]) s1.

(** ** Notions used to state the properties *)

(** [s'] differs from [s] in the state of the backend at most, and the
    terminal has kept its size. *)
Definition only_screen (s s' : interactiveInterface) : Prop :=
  s' = set_screen (fun _ => screen s') s
  /\ scr_width (screen s') = scr_width (screen s)
  /\ scr_height (screen s') = scr_height (screen s).

(** A computation that touches nothing but the backend, cannot block, and
    panics only when the backend does: with the value the backend holds. *)
Definition backend_only {A} (m : M A) : Prop :=
  forall s,
    only_screen s (m s).2
    /\ (exists cs, scr_calls (screen (m s).2) = scr_calls (screen s) ++ cs)
    /\ match (m s).1 with
       | Ok _ =>
         forall r, (exists n, scr_fault (screen (m s).2) = Some (n, r))
                   <-> (exists n0, scr_fault (screen s) = Some (n0, r))
       | Panic r =>
         (exists n0, scr_fault (screen s) = Some (n0, r))
         /\ scr_fault (screen (m s).2) = None
       | Deadlock => False
       end.

(** The state after the backend has completed the calls [cs] without a fault. *)
Definition add_calls (cs : list call) (s : interactiveInterface) : interactiveInterface :=
  set_screen (fun scr => mkScreen (scr_width scr) (scr_height scr) (scr_calls scr ++ cs) None) s.

(** On a backend that does not fail, [m] completes exactly the calls [cs]. *)
Definition emits (m : M unit) (cs : list call) : Prop :=
  forall s, scr_fault (screen s) = None -> m s = (Ok tt, add_calls cs s).

(** The calls of [displayAndTruncateString]. *)
Definition cells (width y : Z) (s : string) (style : Style) : list call :=
  ((fun c => CallSetContent c.1 y c.2 [] style)
     <$> imap (fun i r => (Z.of_nat i, r)) (take (Z.to_nat width) (runes s)))
  ++ ((fun i => CallSetContent i y 32 [] style)
        <$> seqZ (Z.of_nat (length (runes s))) (width - Z.of_nat (length (runes s)))).

(** The calls of [draw_block]. *)
Definition block_calls (width : Z) (headerStyle lineStyle : Style) (b : block) : list call :=
  cells width (blk_row b) (blk_header b) headerStyle
  ++ concat ((fun c => cells width c.1 c.2 lineStyle)
               <$> imap (fun i logLine => (blk_row b + 1 + Z.of_nat i, logLine))
                        (blk_lines b)).

(** The registry an operation leaves when the mutex is free. *)
Definition jobs_after (o : op) (m : gmap string interactiveInterfaceJob)
    : gmap string interactiveInterfaceJob :=
  match o with
  | OpStartJob service image =>
    <[service := mkJob (CreateStringRingBuffer 20) 0 "" false image service]> m
  | OpFailJob service None => m
  | OpFailJob service (Some text) =>
    match m !! service with
    | Some job =>
      <[service := set_status "failed"
                     (set_lastLogLines (Push (TrimSpace ("Error! " +:+ text))) job)]> m
    | None => m
    end
  | OpSucceedJob service =>
    match m !! service with
    | Some job => <[service := set_status "succeeded" job]> m
    | None => m
    end
  | OpSetPushing service =>
    match m !! service with
    | Some job => <[service := set_pushing true job]> m
    | None => m
    end
  | OpProcessLog service logLine =>
    match m !! service with
    | Some job =>
      if decide (TrimSpace logLine <> "")
      then <[service := set_lastLogLines (Push (TrimSpace logLine)) job]> m
      else m
    | None => m
    end
  | _ => m
  end.

(** [key] was started in the course of [ops]. *)
Definition started (ops : list op) (key : string) : Prop :=
  exists image, OpStartJob key image ∈ ops.

(** Every job is stored under its own [service]. *)
Definition registry_ok (m : gmap string interactiveInterfaceJob) : Prop :=
  forall k j, m !! k = Some j -> service j = k.

(** States used as concrete inputs. *)
Definition fresh : interactiveInterface := NewInteractiveInterface (plain_screen 80 24).

Definition demo_order : list (string * interactiveInterfaceJob) :=
  Eval vm_compute in map_to_list (jobs demo).

Definition faulty_demo : interactiveInterface :=
  set_screen (fun scr => mkScreen (scr_width scr) (scr_height scr) (scr_calls scr)
                                  (Some (5%nat, "backend gone"))) demo.

(** The jobs [Close] reports as failed: all but the succeeded ones. *)
Definition not_succeeded (e : string * interactiveInterfaceJob) : Prop :=
  status e.2 <> "succeeded".

#[global] Instance not_succeeded_dec e : Decision (not_succeeded e).
Proof. unfold not_succeeded. apply _. Defined.

Definition two_building : interactiveInterface :=
  Eval vm_compute in
  (run [OpStartJob "a" "img-a"; OpStartJob "b" "img-b"] fresh).2.

Definition two_succeeded : interactiveInterface :=
  Eval vm_compute in
  (run [OpSucceedJob "a"; OpSucceedJob "b"] two_building).2.

Definition ab (s : interactiveInterface) : list (string * interactiveInterfaceJob) :=
  match jobs s !! "a", jobs s !! "b" with
  | Some ja, Some jb => [("a", ja); ("b", jb)]
  | _, _ => []
  end.

Definition ba (s : interactiveInterface) : list (string * interactiveInterfaceJob) :=
  match jobs s !! "a", jobs s !! "b" with
  | Some ja, Some jb => [("b", jb); ("a", ja)]
  | _, _ => []
  end.

(** Go's [<] on strings, and the order of the jobs it induces. *)
Definition key_lt (a b : string) : Prop := String.ltb a b = true.

Definition job_lt (a b : interactiveInterfaceJob) : Prop :=
  key_lt (service a) (service b).

(** The three slices of [redrawScreen], by the status they select. *)
Definition is_succeeded (j : interactiveInterfaceJob) : Prop := status j = "succeeded".
Definition is_failed (j : interactiveInterfaceJob) : Prop := status j = "failed".
Definition is_curr (j : interactiveInterfaceJob) : Prop :=
  status j <> "succeeded" /\ status j <> "failed".

#[global] Instance is_succeeded_dec j : Decision (is_succeeded j).
Proof. unfold is_succeeded. apply _. Defined.

#[global] Instance is_failed_dec j : Decision (is_failed j).
Proof. unfold is_failed. apply _. Defined.

#[global] Instance is_curr_dec j : Decision (is_curr j).
Proof. unfold is_curr. apply _. Defined.

(** The numbers of failed, succeeded and building jobs of a registry. *)
Definition num_failed (m : gmap string interactiveInterfaceJob) : Z :=
  len (filter is_failed (map_to_list m).*2).


Definition num_curr (m : gmap string interactiveInterfaceJob) : Z :=
  len (filter is_curr (map_to_list m).*2).

(** The jobs [redrawScreen] draws, in the order in which it draws them. *)
Definition render_order (order : list (string * interactiveInterfaceJob))
    : list interactiveInterfaceJob :=
  let '(_, failedJobs, currJobs) := classify order in
  sortJobs failedJobs ++ sortJobs currJobs.

(** The blocks of the two job loops of [redrawScreen]. *)
Definition layout (order : list (string * interactiveInterfaceJob)) (height : Z)
    : list block * list block :=
  let '(_, failedJobs, currJobs) := classify order in
  let failedJobs := sortJobs failedJobs in
  let currJobs := sortJobs currJobs in
  let numFailedAndBuilding := len failedJobs + len currJobs in
  let linesPerJob := linesPerJob height numFailedAndBuilding in
  let numRemainderLines := numRemainderLines height numFailedAndBuilding in
  let '(failedBlocks, currRenderLine, numRemainderLines) :=
    render_jobs failed_header height linesPerJob failedJobs 0 numRemainderLines in
  let '(currBlocks, _, _) :=
    render_jobs curr_header height linesPerJob currJobs currRenderLine numRemainderLines in
  (failedBlocks, currBlocks).

(** The calls of a pass of [redrawScreen] after the call of [Size], on a
    backend that does not fail: nothing when no job is failed or building;
    otherwise the blocks of the failed jobs, those of the building jobs, the
    row of the summary and [Show]. *)
Definition frame_calls (order : list (string * interactiveInterfaceJob))
    (width height : Z) (style : Style) : list call :=
  if decide (len (render_order order) = 0) then []
  else
    concat (block_calls width (Foreground (NewRGBColor 190 0 0) style) style
              <$> (layout order height).1)
    ++ concat (block_calls width (Foreground (NewRGBColor 190 190 0) style) style
                 <$> (layout order height).2)
    ++ cells width (height - 1)
         (summary_line (len (filter is_failed order.*2))
                       (len (filter is_succeeded order.*2))
                       (len (filter is_curr order.*2))
                       (len (filter is_curr order.*2) + len (filter is_failed order.*2)
                        + len (filter is_succeeded order.*2)))
         (Foreground (NewRGBColor 190 190 190) style)
    ++ [CallShow].


(** ** The two goroutines of NewInteractiveInterface, as loops *)

(** The key codes of tcell the event loop tells apart. *)
Inductive Key :=
| KeyCtrlC
| KeyEsc
| KeyExit
| KeyOther (code : Z).

(** What [screen.PollEvent] returns; a resize comes with the enumerations the
    pass it triggers follows. The end of the list is the [nil] event. *)
Inductive Event :=
| EventResize (order close_order : list (string * interactiveInterfaceJob))
| EventKey (key : Key)
| EventOther.

Definition is_cancel_key (key : Key) : bool :=
  match key with
  | KeyCtrlC | KeyEsc | KeyExit => true
  | KeyOther _ => false
  end.

(** The first goroutine: the listeners it has called, in the order of the
    calls, are its result. *)
Fixpoint event_loop (evs : list Event) : M (list nat) :=
  match evs with
  | [] => ret []
  | ev :: rest =>
    match ev with
    | EventResize order close_order =>
      on_resize order close_order ;; event_loop rest
    | EventKey key =>
      if is_cancel_key key
      then s <- get ;; on_cancel_key ;; ret (cancelListeners s)
      else event_loop rest
    | EventOther => event_loop rest
    end
  end.


(** An event that is no interrupt key. *)
Definition quiet_event (ev : Event) : Prop :=
  match ev with
  | EventKey key => is_cancel_key key = false
  | _ => True
  end.

(** ** Further notions *)

(** The key an operation needs in the registry not to panic. *)
Definition needs_key (o : op) : option string :=
  match o with
  | OpFailJob service _ => Some service
  | OpProcessLog service _ => Some service
  | _ => None
  end.

(** Every call of [FailJob] and [ProcessLog] in [ops] comes after a call of
    [StartJob] on its key. *)
Definition logs_follow_starts (ops : list op) : Prop :=
  forall i o k, ops !! i = Some o -> needs_key o = Some k ->
    exists j image, (j < i)%nat /\ ops !! j = Some (OpStartJob k image).

(** A failure reported without an error. *)
Definition fails_without_error (o : op) : Prop :=
  match o with
  | OpFailJob _ None => True
  | _ => False
  end.

(** The three values a status takes. *)
Definition status_ok (j : interactiveInterfaceJob) : Prop :=
  status j = "" \/ status j = "succeeded" \/ status j = "failed".

(** The row below the last row of a block, and blocks that follow one another
    from the row [top] down to the row [bottom]. *)
Definition block_end (b : block) : Z := blk_row b + 1 + len (blk_lines b).

Fixpoint stacked (top : Z) (bs : list block) (bottom : Z) : Prop :=
  match bs with
  | [] => bottom = top
  | b :: bs' => blk_row b = top /\ stacked (block_end b) bs' bottom
  end.

(** ** pkg/config *)

Module Config.

Record Command := mkCommand {
  Name : string;
  Command_Command : string
}.

Record Environment := mkEnvironment {
  Environment_Commands : list Command;
  ClusterProvisioner : string;
  ClusterProvisionerArgs : gmap string string;
  Namespace : string
}.

Record Deploy := mkDeploy {
  Folder : string;
  TemplaterImage : string
}.

Record Build := mkBuild {
  IgnoreDirs : list string
}.

Record SanicConfig := mkSanicConfig {
  Commands : list Command;
  Environments : gmap string Environment;
  Deploy_ : Deploy;
  Build_ : Build
}.

(** The shell, by the two methods [CurrentEnvironment] calls. *)
Record Shell := mkShell {
  GetSanicEnvironment : string;
  GetSanicRoot : string
}.

Section WithCollaborators.

(** Packages and libraries that are not among the sources: the provisioners
    of the repository, ioutil.ReadFile ([inr] holds the text of the error),
    yaml.Unmarshal into an empty [SanicConfig], filepath.Base. *)
Variable ProvisionerExists : string -> bool.
Variable GetProvisionerNames : list string.
Variable ValidateProvisionerConfig : string -> gmap string string -> option string.
Variable ReadFile : string -> string + string.
Variable Unmarshal : string -> SanicConfig + string.
Variable Base : string -> string.

(** The loop of [ReadFromPath] over the environments, along the enumeration
    [order]: the error it returns, if any. *)
Fixpoint check_environments (order : list (string * Environment)) : option string :=
  match order with
  | [] => None
  | (envName, env) :: rest =>
    if decide (ClusterProvisioner env <> "") then
      if negb (ProvisionerExists (ClusterProvisioner env)) then
        Some ("configuration file error: environment " +:+ envName +:+ "'s"
              +:+ " clusterProvisioner key must be one of "
              +:+ Join GetProvisionerNames ", " +:+ " or omitted, was: '"
              +:+ ClusterProvisioner env +:+ "'")
      else
        match ValidateProvisionerConfig (ClusterProvisioner env)
                                        (ClusterProvisionerArgs env) with
        | Some err =>
          Some ("configuration file error: arguments provided to provisioner "
                +:+ envName +:+ " of type " +:+ ClusterProvisioner env
                +:+ " were invalid: " +:+ err)
        | None => check_environments rest
        end
    else check_environments rest
  end.

Definition with_defaults (cfg : SanicConfig) : SanicConfig :=
  let folder := if decide (Folder (Deploy_ cfg) = "") then "deploy"
                else Folder (Deploy_ cfg) in
  let templater := if decide (TemplaterImage (Deploy_ cfg) = "")
                   then "distributedcontainers/templater-golang"
                   else TemplaterImage (Deploy_ cfg) in
  mkSanicConfig (Commands cfg) (Environments cfg) (mkDeploy folder templater) (Build_ cfg).

(** [order] maps a configuration to the enumeration the loop follows on its
    environments. *)
Definition ReadFromPath (order : SanicConfig -> list (string * Environment))
    (configPath : string) : SanicConfig + string :=
  match ReadFile configPath with
  | inr err => inr ("configuration file could not be read: " +:+ err)
  | inl data =>
    match Unmarshal data with
    | inr err => inr ("configuration file error: " +:+ err)
    | inl cfg =>
      match check_environments (order cfg) with
      | Some err => inr err
      | None => inl (with_defaults cfg)
      end
    end
  end.

(** [sanic_config] is the value of the environment variable SANIC_CONFIG. *)
Definition Read (order : SanicConfig -> list (string * Environment))
    (sanic_config : string) : SanicConfig + string :=
  let configPath := sanic_config in
  if decide (configPath = "") then inr "enter an environment with 'sanic env'"
  else ReadFromPath order configPath.

Definition HasEnvironment (cfg : SanicConfig) (env : string) : bool :=
  match Environments cfg !! env with
  | Some _ => true
  | None => false
  end.

Definition CurrentEnvironment (cfg : SanicConfig) (s : Shell) : Environment + string :=
  match Environments cfg !! GetSanicEnvironment s with
  | Some ret => inl ret
  | None =>
    inr ("the environment " +:+ GetSanicEnvironment s
         +:+ " does not exist in the project '" +:+ Base (GetSanicRoot s) +:+ "'")
  end.

(** An environment the loop of [ReadFromPath] accepts. *)
Definition environment_ok (env : Environment) : Prop :=
  ClusterProvisioner env = ""
  \/ (ProvisionerExists (ClusterProvisioner env) = true
      /\ ValidateProvisionerConfig (ClusterProvisioner env)
                                   (ClusterProvisionerArgs env) = None).

End WithCollaborators.

End Config.

(** Stand-ins for the collaborators of pkg/config, to run it on concrete
    inputs: two provisioners, of which "external" wants a "kubeConfig"
    argument; two files; a parser that knows their contents. *)
Module ConfigSample.

Definition exists_ (name : string) : bool :=
  String.eqb name "k3s" || String.eqb name "external".

Definition names : list string := ["k3s"; "external"].

Definition validate (name : string) (args : gmap string string) : option string :=
  if String.eqb name "external" then
    match args !! "kubeConfig" with
    | Some _ => None
    | None => Some "kubeConfig is required"
    end
  else None.

Definition good : Config.SanicConfig :=
  Eval vm_compute in
  Config.mkSanicConfig []
    (<["dev" := Config.mkEnvironment [] "k3s" ∅ "sanic"]>
       (<["bare" := Config.mkEnvironment [] "" ∅ ""]> ∅))
    (Config.mkDeploy "" "my/templater") (Config.mkBuild []).

Definition bad : Config.SanicConfig :=
  Eval vm_compute in
  Config.mkSanicConfig []
    (<["prod" := Config.mkEnvironment [] "external" ∅ "sanic"]> ∅)
    (Config.mkDeploy "" "") (Config.mkBuild []).

Definition read_file (path : string) : string + string :=
  if String.eqb path "sanic.yaml" then inl "good"
  else if String.eqb path "bad.yaml" then inl "bad"
  else inr ("open " +:+ path +:+ ": no such file or directory").

Definition unmarshal (data : string) : Config.SanicConfig + string :=
  if String.eqb data "good" then inl good
  else if String.eqb data "bad" then inl bad
  else inr "yaml: unmarshal errors".

Definition order (cfg : Config.SanicConfig) : list (string * Config.Environment) :=
  map_to_list (Config.Environments cfg).

End ConfigSample.

(** * Properties *)

Example decode_ex : runes "a b" = [97; 32; 98].
Proof. reflexivity. Qed.

Example trim_ex : TrimSpace "  Step 1/4 : FROM x 
" = "Step 1/4 : FROM x".
Proof. reflexivity. Qed.

Example ring_ex :
  let b := foldl (fun b l => Push l b) (CreateStringRingBuffer 3) ["L1"; "L2"; "L3"; "L4"; "L5"] in
  rb_lines b = ["L3"; "L4"; "L5"] /\ Peek 2 b = ["L4"; "L5"] /\ Peek 7 b = ["L3"; "L4"; "L5"].
Proof. repeat split. Qed.

Example failure_summary_ex :
  failure_summary ["A"] = "Failed to build the following jobs: A
See the logs folder for details.
".
Proof. reflexivity. Qed.

(** ** Running the life-cycle calls *)

Lemma set_mutex_restore s : mutex s = false -> set_mutex false (set_mutex true s) = s.
Proof. destruct s; simpl; intros ->; reflexivity. Qed.

Ltac unfold_go :=
  unfold bind, defer, Lock, Unlock, get, panic, modify, ret.

Lemma StartJob_run s service image :
  mutex s = false ->
  StartJob service image s =
  (Ok tt, set_jobs (insert service
            (mkJob (CreateStringRingBuffer 20) 0 "" false image service)) s).
Proof.
  intros Hm. unfold StartJob; unfold_go. rewrite Hm. simpl.
  destruct s; simpl in *; subst; reflexivity.
Qed.

Lemma ProcessLog_unknown s service logLine :
  mutex s = false -> jobs s !! service = None ->
  ProcessLog service logLine s = (Panic ("Could not find service: " +:+ service), s).
Proof.
  intros Hm Hj. unfold ProcessLog; unfold_go.
  rewrite Hm. simpl. rewrite Hj. simpl. rewrite set_mutex_restore; auto.
Qed.

Lemma ProcessLog_known s service logLine job :
  mutex s = false -> jobs s !! service = Some job ->
  ProcessLog service logLine s =
  (Ok tt, if decide (TrimSpace logLine <> "")
          then set_jobs (insert service (set_lastLogLines (Push (TrimSpace logLine)) job)) s
          else s).
Proof.
  intros Hm Hj. unfold ProcessLog; unfold_go.
  rewrite Hm. simpl. rewrite Hj. simpl.
  destruct (decide (TrimSpace logLine <> "")); simpl.
  - destruct s; simpl in *; subst; reflexivity.
  - rewrite set_mutex_restore; auto.
Qed.

Lemma guarded_update_run (f : interactiveInterfaceJob -> interactiveInterfaceJob) s service :
  mutex s = false ->
  (Lock ;;
   defer Unlock
     (s <- get ;;
      match jobs s !! service with
      | Some job => modify (set_jobs (insert service (f job)))
      | None => ret tt
      end)) s =
  (Ok tt, match jobs s !! service with
          | Some job => set_jobs (insert service (f job)) s
          | None => s
          end).
Proof.
  intros Hm. unfold_go. rewrite Hm. simpl.
  destruct (jobs s !! service) as [job|]; simpl.
  - destruct s; simpl in *; subst; reflexivity.
  - rewrite set_mutex_restore; auto.
Qed.

Lemma SucceedJob_run s service :
  mutex s = false ->
  SucceedJob service s =
  (Ok tt, match jobs s !! service with
          | Some job => set_jobs (insert service (set_status "succeeded" job)) s
          | None => s
          end).
Proof. apply (guarded_update_run (set_status "succeeded")). Qed.

Lemma SetPushing_run s service :
  mutex s = false ->
  SetPushing service s =
  (Ok tt, match jobs s !! service with
          | Some job => set_jobs (insert service (set_pushing true job)) s
          | None => s
          end).
Proof. apply (guarded_update_run (set_pushing true)). Qed.

Lemma FailJob_nil s service :
  FailJob service None s = (Panic nil_dereference, s).
Proof. reflexivity. Qed.

Lemma FailJob_unknown s service text :
  mutex s = false -> jobs s !! service = None ->
  FailJob service (Some text) s = (Panic ("Could not find service: " +:+ service), s).
Proof.
  intros Hm Hj. unfold FailJob, Error. unfold bind at 1. unfold ret at 1.
  unfold bind at 1.
  rewrite ProcessLog_unknown by assumption. reflexivity.
Qed.

Lemma drop_while_snoc {A} (p : A -> bool) l x :
  p x = false -> exists l', drop_while p (l ++ [x]) = l' ++ [x].
Proof.
  intros Hx. induction l as [|y l IH]; simpl.
  - rewrite Hx. by exists [].
  - destruct (p y); [exact IH|]. by exists (y :: l).
Qed.

(** A line that starts with a rune that is no space is not trimmed away. *)
Lemma TrimSpace_nonempty c0 s1 :
  IsSpace (DecodeRuneInString c0 s1).1 = false ->
  (DecodeRuneInString c0 s1).2 <> "" ->
  TrimSpace (String c0 s1) <> "".
Proof.
  intros Hsp Hne. unfold TrimSpace, decode. simpl.
  set (d := DecodeRuneInString c0 s1) in *.
  set (rest := decode_from _ s1).
  unfold chunk_is_space at 2. rewrite Hsp.
  change (rev (d :: rest)) with (rev rest ++ [d]).
  destruct (drop_while_snoc chunk_is_space (rev rest) d Hsp) as [l' ->].
  rewrite rev_app_distr. simpl.
  destruct (d.2) eqn:E; [done|]. simpl. discriminate.
Qed.

Lemma TrimSpace_Error err : TrimSpace ("Error! " +:+ err) <> "".
Proof. apply TrimSpace_nonempty; [reflexivity | discriminate]. Qed.

Lemma FailJob_known s service text job :
  mutex s = false -> jobs s !! service = Some job ->
  FailJob service (Some text) s =
  (Ok tt, set_jobs (insert service
            (set_status "failed"
               (set_lastLogLines (Push (TrimSpace ("Error! " +:+ text))) job))) s).
Proof.
  intros Hm Hj. unfold FailJob, Error. unfold bind at 1. unfold ret at 1.
  unfold bind at 1.
  rewrite (ProcessLog_known _ _ _ job) by assumption.
  destruct (decide _) as [_|Hn]; [|destruct Hn; apply TrimSpace_Error].
  rewrite guarded_update_run by (destruct s; assumption).
  simpl. rewrite lookup_insert_eq.
  destruct s; simpl. unfold set_jobs; simpl. by rewrite insert_insert_eq.
Qed.

Lemma Close_run s order :
  mutex s = false -> Close order s = (Ok tt, close_state order s).
Proof.
  intros Hm. unfold Close, close_state, Fini, Printf; unfold_go. rewrite Hm. simpl.
  destruct (close_loop order) as [[dirs images] failed]. simpl.
  destruct (cancelled s) eqn:Hc; simpl.
  - destruct s; simpl in *; subst; reflexivity.
  - unfold len. destruct (decide (0 < Z.of_nat (length failed))); simpl;
      destruct s; simpl in *; subst; reflexivity.
Qed.

(** ** Computations that only talk to the backend *)

Lemma only_screen_refl s : only_screen s s.
Proof. unfold only_screen. destruct s; simpl. auto. Qed.

Lemma only_screen_trans s1 s2 s3 :
  only_screen s1 s2 -> only_screen s2 s3 -> only_screen s1 s3.
Proof.
  unfold only_screen. intros (E1 & W1 & H1) (E2 & W2 & H2).
  split; [|split; congruence].
  rewrite E2, E1. destruct s1; reflexivity.
Qed.

Lemma only_screen_fields s s' :
  only_screen s s' ->
  jobs s' = jobs s /\ mutex s' = mutex s /\ cancelled s' = cancelled s
  /\ running s' = running s /\ stdout s' = stdout s
  /\ screenStyle s' = screenStyle s /\ cancelListeners s' = cancelListeners s.
Proof. intros (E & _). rewrite E. destruct s; simpl. repeat split. Qed.

Lemma backend_only_ret {A} (a : A) : backend_only (ret a).
Proof.
  intros s. simpl. split; [apply only_screen_refl|]. split.
  - exists []. by rewrite app_nil_r.
  - done.
Qed.

Lemma backend_only_get : backend_only get.
Proof.
  intros s. simpl. split; [apply only_screen_refl|]. split.
  - exists []. by rewrite app_nil_r.
  - done.
Qed.

Lemma backend_only_backend c : backend_only (backend c).
Proof.
  intros s. unfold backend.
  destruct (scr_fault (screen s)) as [[[|n] r]|] eqn:E; simpl.
  - split; [|split].
    + unfold only_screen. destruct s; simpl. auto.
    + exists []. by rewrite app_nil_r.
    + eauto.
  - split; [|split].
    + unfold only_screen. destruct s; simpl. auto.
    + by exists [c].
    + intros r'. split; intros [n' [= ? ?]]; subst; eauto.
  - split; [|split].
    + unfold only_screen. destruct s; simpl. auto.
    + by exists [c].
    + intros r'. split; intros [n' [=]].
Qed.

Lemma backend_only_bind {A B} (m : M A) (k : A -> M B) :
  backend_only m -> (forall a, backend_only (k a)) -> backend_only (bind m k).
Proof.
  intros Hm Hk s. unfold bind.
  destruct (Hm s) as (Ho & [cs Hc] & Hr).
  destruct (m s) as [[a|r|] s1] eqn:E; simpl in *; [|by eauto|done].
  destruct (Hk a s1) as (Ho' & [cs' Hc'] & Hr').
  split; [eapply only_screen_trans; eauto|]. split.
  - exists (cs ++ cs'). rewrite Hc', Hc. by rewrite app_assoc.
  - destruct ((k a s1).1) as [b|r|]; [| |done].
    + intros r. by rewrite Hr', Hr.
    + destruct Hr' as [Hsome Hnone]. split; [|done]. by apply Hr.
Qed.

Lemma backend_only_foreach {A} (l : list A) (f : A -> M unit) :
  (forall x, backend_only (f x)) -> backend_only (foreach l f).
Proof.
  intros Hf. induction l as [|x l IH]; simpl.
  - apply backend_only_ret.
  - apply backend_only_bind; auto.
Qed.

Lemma backend_only_displayAndTruncateString width y s style :
  backend_only (displayAndTruncateString width y s style).
Proof.
  unfold displayAndTruncateString.
  apply backend_only_bind; [|intros _];
    apply backend_only_foreach; intros; apply backend_only_backend.
Qed.

Lemma backend_only_draw_block width hs ls b : backend_only (draw_block width hs ls b).
Proof.
  unfold draw_block. apply backend_only_bind.
  - apply backend_only_displayAndTruncateString.
  - intros _. apply backend_only_foreach; intros.
    apply backend_only_displayAndTruncateString.
Qed.

Lemma backend_only_redraw_locked order width height :
  backend_only (redraw_locked order width height).
Proof.
  unfold redraw_locked. apply backend_only_bind; [apply backend_only_get|].
  intros s. destruct (classify order) as [[su fa] cu].
  destruct (decide _); [apply backend_only_ret|].
  destruct (render_jobs failed_header _ _ _ _ _) as [[fb c1] r1].
  apply backend_only_bind.
  { apply backend_only_foreach; intros; apply backend_only_draw_block. }
  intros _. destruct (render_jobs curr_header _ _ _ _ _) as [[cb c2] r2].
  apply backend_only_bind.
  { apply backend_only_foreach; intros; apply backend_only_draw_block. }
  intros _. apply backend_only_bind.
  { apply backend_only_displayAndTruncateString. }
  intros _. apply backend_only_backend.
Qed.

Lemma backend_only_Size : backend_only Size.
Proof.
  unfold Size. apply backend_only_bind; [apply backend_only_backend|].
  intros _. apply backend_only_bind; [apply backend_only_get|].
  intros s. apply backend_only_ret.
Qed.

(** ** redrawScreen and its deferred functions *)

Lemma locked_run {A} (body : M A) s :
  backend_only body -> mutex s = false ->
  (Lock ;; defer Unlock body) s =
  ((body (set_mutex true s)).1, set_mutex false (body (set_mutex true s)).2).
Proof.
  intros Hb Hm. unfold bind at 1. unfold Lock. rewrite Hm. unfold defer, Unlock.
  destruct (Hb (set_mutex true s)) as (Ho & _ & Hr).
  apply only_screen_fields in Ho. destruct Ho as (_ & Hmx & _).
  destruct (body (set_mutex true s)) as [[a|r|] s1]; simpl in *;
    [rewrite Hmx; destruct s; reflexivity..|done].
Qed.

Lemma redraw_unprotected_run order s :
  mutex s = false ->
  redraw_unprotected order s =
  match Size s with
  | (Ok size, s1) =>
    ((redraw_locked order size.1 size.2 (set_mutex true s1)).1,
     set_mutex false (redraw_locked order size.1 size.2 (set_mutex true s1)).2)
  | (Panic r, s1) => (Panic r, s1)
  | (Deadlock, s1) => (Deadlock, s1)
  end.
Proof.
  intros Hm. unfold redraw_unprotected. unfold bind at 1.
  destruct (backend_only_Size s) as (Ho & _ & _).
  apply only_screen_fields in Ho. destruct Ho as (_ & Hmx & _).
  destruct (Size s) as [[size|r|] s1]; simpl in *; try reflexivity.
  apply locked_run; [apply backend_only_redraw_locked | congruence].
Qed.

(** With the mutex free, [redraw_unprotected] behaves as a computation that
    only talks to the backend: the lock it takes is released on every path. *)
Lemma redraw_unprotected_backend order s :
  mutex s = false ->
  only_screen s (redraw_unprotected order s).2
  /\ (exists cs, scr_calls (screen (redraw_unprotected order s).2)
                 = scr_calls (screen s) ++ cs)
  /\ match (redraw_unprotected order s).1 with
     | Ok _ =>
       forall r, (exists n, scr_fault (screen (redraw_unprotected order s).2) = Some (n, r))
                 <-> (exists n0, scr_fault (screen s) = Some (n0, r))
     | Panic r =>
       (exists n0, scr_fault (screen s) = Some (n0, r))
       /\ scr_fault (screen (redraw_unprotected order s).2) = None
     | Deadlock => False
     end.
Proof.
  intros Hm. rewrite redraw_unprotected_run by assumption.
  destruct (backend_only_Size s) as (Ho & [cs Hc] & Hr).
  destruct (Size s) as [[size|r|] s1]; simpl in *; [|by eauto|done].
  destruct (backend_only_redraw_locked order size.1 size.2 (set_mutex true s1))
    as (Ho' & [cs' Hc'] & Hr').
  set (out := redraw_locked order size.1 size.2 (set_mutex true s1)) in *.
  split; [|split].
  - destruct Ho as (E & W & H), Ho' as (E' & W' & H').
    unfold only_screen. rewrite E'. simpl.
    split; [|split; simpl in *; congruence].
    rewrite E. destruct s; simpl in *; subst; reflexivity.
  - exists (cs ++ cs'). destruct (out.2); simpl in *.
    rewrite Hc', Hc. by rewrite app_assoc.
  - destruct (out.1) as [a|r|]; [|
    |done].
    { intros r. rewrite <- Hr. simpl in Hr'. rewrite <- Hr'. by destruct (out.2). }
    destruct Hr' as [Hsome Hnone]. simpl in Hsome.
    split; [by apply Hr|]. destruct (out.2); exact Hnone.
Qed.

Lemma redrawScreen_run order close_order s :
  mutex s = false ->
  redrawScreen order close_order s =
  match redraw_unprotected order s with
  | (Ok a, s1) => (Ok a, s1)
  | (Panic r, s1) => (Panic r, close_state close_order s1)
  | (Deadlock, s1) => (Deadlock, s1)
  end.
Proof.
  intros Hm. unfold redrawScreen, defer_recover.
  destruct (redraw_unprotected_backend order s Hm) as (Ho & _ & _).
  apply only_screen_fields in Ho. destruct Ho as (_ & Hmx & _).
  destruct (redraw_unprotected order s) as [[a|r|] s1]; simpl in *; try reflexivity.
  unfold bind. rewrite Close_run by congruence. reflexivity.
Qed.

Lemma close_state_fields order s :
  jobs (close_state order s) = jobs s
  /\ mutex (close_state order s) = mutex s
  /\ cancelled (close_state order s) = cancelled s
  /\ running (close_state order s) = false
  /\ scr_calls (screen (close_state order s)) = scr_calls (screen s) ++ [CallFini]
  /\ scr_fault (screen (close_state order s)) = scr_fault (screen s).
Proof.
  unfold close_state. destruct (cancelled s) eqn:E.
  - destruct s; simpl in *. repeat split; congruence.
  - destruct (close_loop order) as [[? ?] ?]. destruct s; simpl in *.
    repeat split; congruence.
Qed.

Lemma redrawScreen_fields order close_order s :
  mutex s = false ->
  jobs (redrawScreen order close_order s).2 = jobs s
  /\ mutex (redrawScreen order close_order s).2 = false
  /\ cancelled (redrawScreen order close_order s).2 = cancelled s
  /\ (redrawScreen order close_order s).1 <> Deadlock.
Proof.
  intros Hm. rewrite redrawScreen_run by assumption.
  destruct (redraw_unprotected_backend order s Hm) as (Ho & _ & Hr).
  apply only_screen_fields in Ho. destruct Ho as (Hj & Hmx & Hc & _).
  destruct (redraw_unprotected order s) as [[a|r|] s1]; simpl in *; [|
    |done].
  - repeat split; congruence.
  - destruct (close_state_fields close_order s1) as (Hj' & Hm' & Hc' & _).
    repeat split; congruence.
Qed.

(** C5. If the backend fails during a render pass, [redrawScreen] tears the
    terminal down and then raises the very failure again. Stated on a backend
    that holds a failure [r]: either the pass ends before the backend fails
    (it returns normally, the failure is still to come, nothing else
    happened), or the backend failed, and then the pass panics with [r], the
    call of [Fini] is the last one the backend saw, made after the calls of
    the interrupted pass, the redraw loop is told to stop and the mutex is
    free. No outcome swallows the failure or leaves the terminal as it was. *)
Theorem redrawScreen_failure_teardown order close_order s n r :
  mutex s = false ->
  scr_fault (screen s) = Some (n, r) ->
  let out := redrawScreen order close_order s in
  (out = redraw_unprotected order s
   /\ out.1 = Ok tt
   /\ exists n', scr_fault (screen out.2) = Some (n', r))
  \/ (out.1 = Panic r
      /\ (redraw_unprotected order s).1 = Panic r
      /\ scr_fault (screen out.2) = None
      /\ scr_calls (screen out.2)
         = scr_calls (screen (redraw_unprotected order s).2) ++ [CallFini]
      /\ last (scr_calls (screen out.2)) = Some CallFini
      /\ running out.2 = false
      /\ mutex out.2 = false).
Proof.
  intros Hm Hf out. subst out. rewrite redrawScreen_run by assumption.
  destruct (redraw_unprotected_backend order s Hm) as (Ho & _ & Hr).
  apply only_screen_fields in Ho. destruct Ho as (_ & Hmx & _).
  destruct (redraw_unprotected order s) as [[[]|r'|] s1]; simpl in *; [|
    |done].
  - left. repeat split. apply Hr. eauto.
  - right. destruct Hr as [[n0 Hn0] Hnone].
    assert (r' = r) as -> by congruence.
    destruct (close_state_fields close_order s1) as (_ & Hm' & _ & Hrun & Hcalls & Hfault).
    repeat split; try congruence.
    rewrite Hcalls. apply last_snoc.
Qed.

Lemma redrawScreen_failure_teardown_witness :
  mutex faulty_demo = false
  /\ scr_fault (screen faulty_demo) = Some (5%nat, "backend gone")
  /\ (redrawScreen demo_order demo_order faulty_demo).1 = Panic "backend gone"
  /\ last (scr_calls (screen (redrawScreen demo_order demo_order faulty_demo).2))
     = Some CallFini.
Proof.
  split; [reflexivity|]. split; [reflexivity|].
  destruct (redrawScreen_failure_teardown demo_order demo_order faulty_demo
              5%nat "backend gone" eq_refl eq_refl) as [(_ & H & _)|H].
  - vm_compute in H. discriminate H.
  - split; apply H.
Defined.

(** ** One operation after the other *)

Lemma exec_spec o s :
  mutex s = false ->
  jobs (exec o s).2 = jobs_after o (jobs s)
  /\ mutex (exec o s).2 = false
  /\ (exec o s).1 <> Deadlock.
Proof.
  intros Hm. destruct o as [k img|k [err|]|k|k|k line|f|order|order co|order co|]; simpl.
  - rewrite StartJob_run by assumption. destruct s; simpl in *. auto.
  - destruct (jobs s !! k) as [job|] eqn:E.
    + rewrite (FailJob_known _ _ _ job) by assumption. destruct s; simpl in *. auto.
    + rewrite FailJob_unknown by assumption. simpl. auto.
  - auto.
  - rewrite SucceedJob_run by assumption.
    destruct (jobs s !! k); destruct s; simpl in *; auto.
  - rewrite SetPushing_run by assumption.
    destruct (jobs s !! k); destruct s; simpl in *; auto.
  - destruct (jobs s !! k) as [job|] eqn:E.
    + rewrite (ProcessLog_known _ _ _ job) by assumption.
      destruct (decide _); destruct s; simpl in *; auto.
    + rewrite ProcessLog_unknown by assumption. simpl. auto.
  - destruct s; simpl in *. auto.
  - rewrite Close_run by assumption. simpl.
    destruct (close_state_fields order s) as (? & ? & _). split; [done|]. split; [congruence|done].
  - unfold redraw_tick, bind, get. destruct (running s).
    + destruct (redrawScreen_fields order co s Hm) as (? & ? & _ & ?). auto.
    + simpl. auto.
  - unfold on_resize, bind.
    destruct (redrawScreen_fields order co s Hm) as (Hj & Hmx & _ & Hd).
    destruct (redrawScreen order co s) as [[a|r|] s1]; simpl in *; [|auto|done].
    destruct (backend_only_backend CallSync s1) as (Ho & _ & Hr).
    apply only_screen_fields in Ho. destruct Ho as (Hj' & Hm' & _).
    unfold Sync. split; [congruence|]. split; [congruence|].
    intros E. rewrite E in Hr. exact Hr.
  - destruct s; simpl in *. auto.
Qed.

Lemma run_cons o ops s :
  run (o :: ops) s =
  match exec o s with
  | (Ok _, s1) => run ops s1
  | (Panic r, s1) => (Panic r, s1)
  | (Deadlock, s1) => (Deadlock, s1)
  end.
Proof. reflexivity. Qed.

(** What every operation of a run preserves holds when the run stops,
    however it stops. *)
Lemma run_preserves (P : interactiveInterface -> Prop) ops s :
  (forall o s0, o ∈ ops -> P s0 -> P (exec o s0).2) ->
  P s -> P (run ops s).2.
Proof.
  revert s. induction ops as [|o ops IH]; intros s Hstep Hs; [exact Hs|].
  rewrite run_cons.
  assert (P (exec o s).2) as H1 by (apply Hstep; [left|exact Hs]).
  destruct (exec o s) as [[a|r|] s1]; simpl in *; try exact H1.
  apply IH; [|exact H1]. intros o' s0 Hin. apply Hstep. by right.
Qed.

Lemma jobs_after_is_Some o m key :
  is_Some (jobs_after o m !! key)
  <-> is_Some (m !! key) \/ exists image, o = OpStartJob key image.
Proof.
  assert (forall k (j : interactiveInterfaceJob),
             is_Some (m !! k) -> (is_Some (<[k := j]> m !! key) <-> is_Some (m !! key))) as Hupd.
  { intros k j Hk. destruct (decide (k = key)) as [->|Hne].
    - rewrite lookup_insert_eq. split; eauto.
    - by rewrite lookup_insert_ne. }
  destruct o as [k img|k [err|]|k|k|k line|f|order|order co|order co|]; simpl;
    try (split; [by left | intros [?|[? [=]]]; done]).
  - destruct (decide (k = key)) as [->|Hne].
    + rewrite lookup_insert_eq. split; eauto.
    + rewrite lookup_insert_ne by done. split; [by left|].
      intros [?|[? [= ? ?]]]; [done|congruence].
  - destruct (m !! k) eqn:E; [rewrite Hupd by eauto|];
      (split; [by left | intros [?|[? [=]]]; done]).
  - destruct (m !! k) eqn:E; [rewrite Hupd by eauto|];
      (split; [by left | intros [?|[? [=]]]; done]).
  - destruct (m !! k) eqn:E; [rewrite Hupd by eauto|];
      (split; [by left | intros [?|[? [=]]]; done]).
  - destruct (m !! k) eqn:E; [destruct (decide _); [rewrite Hupd by eauto|]|];
      (split; [by left | intros [?|[? [=]]]; done]).
Qed.

(** The keys of the registry after a run that completed are the keys it had
    before and those started on the way: no operation removes a job. *)
Lemma run_started ops s s' key :
  mutex s = false ->
  run ops s = (Ok tt, s') ->
  (is_Some (jobs s' !! key) <-> is_Some (jobs s !! key) \/ started ops key).
Proof.
  revert s. induction ops as [|o ops IH]; intros s Hm Hrun.
  - injection Hrun as <-. split; [by left|]. intros [?|[img Hin]]; [done|].
    by apply elem_of_nil in Hin.
  - rewrite run_cons in Hrun.
    destruct (exec_spec o s Hm) as (Hj & Hm1 & _).
    destruct (exec o s) as [[a|r|] s1]; simpl in *; try discriminate.
    rewrite (IH s1 Hm1 Hrun), Hj, jobs_after_is_Some. unfold started.
    split.
    + intros [[?|[img ->]]|[img Hin]]; [by left| |].
      * right. exists img. by left.
      * right. exists img. by right.
    + intros [?|[img Hin]]; [by left; left|].
      apply elem_of_cons in Hin as [<-|Hin]; [left; right; eauto|right; eauto].
Qed.

Lemma jobs_after_registry_ok o m : registry_ok m -> registry_ok (jobs_after o m).
Proof.
  intros Hok.
  assert (forall k j j', m !! k = Some j -> service j' = service j ->
                         registry_ok (<[k := j']> m)) as Hupd.
  { intros k j j' Hk Hs k' j0. destruct (decide (k = k')) as [->|Hne].
    - rewrite lookup_insert_eq. intros [= <-]. rewrite Hs. by apply Hok.
    - rewrite lookup_insert_ne by done. apply Hok. }
  destruct o as [k img|k [err|]|k|k|k line|f|order|order co|order co|]; simpl; try exact Hok.
  - intros k' j0. destruct (decide (k = k')) as [->|Hne].
    + rewrite lookup_insert_eq. by intros [= <-].
    + rewrite lookup_insert_ne by done. apply Hok.
  - destruct (m !! k) eqn:E; [|exact Hok]. by eapply Hupd.
  - destruct (m !! k) eqn:E; [|exact Hok]. by eapply Hupd.
  - destruct (m !! k) eqn:E; [|exact Hok]. by eapply Hupd.
  - destruct (m !! k) eqn:E; [|exact Hok]. destruct (decide _); [|exact Hok]. by eapply Hupd.
Qed.

(** In every state a run reaches from a new dashboard the mutex is free and
    every job sits under its own name. *)
Lemma run_invariant ops scr :
  let s := (run ops (NewInteractiveInterface scr)).2 in
  mutex s = false /\ registry_ok (jobs s).
Proof.
  apply (run_preserves (fun s => mutex s = false /\ registry_ok (jobs s))).
  - intros o s0 _ [Hm Hok]. destruct (exec_spec o s0 Hm) as (Hj & Hm1 & _).
    split; [exact Hm1|]. rewrite Hj. by apply jobs_after_registry_ok.
  - split; [reflexivity|]. intros k j. simpl. by rewrite lookup_empty.
Qed.

Lemma jobs_after_pushing o m key :
  (forall image, o <> OpStartJob key image) ->
  pushing <$> m !! key = Some true ->
  pushing <$> jobs_after o m !! key = Some true.
Proof.
  intros Hno Hp.
  assert (forall k j j', m !! k = Some j -> pushing j' = (pushing j || pushing j') ->
                         pushing <$> <[k := j']> m !! key = Some true) as Hupd.
  { intros k j j' Hk Hor. destruct (decide (k = key)) as [->|Hne].
    - rewrite lookup_insert_eq. rewrite Hk in Hp. simpl in *.
      injection Hp as Hp. rewrite Hp in Hor. by rewrite Hor.
    - by rewrite lookup_insert_ne. }
  destruct o as [k img|k [err|]|k|k|k line|f|order|order co|order co|]; simpl; try exact Hp.
  - destruct (decide (k = key)) as [->|Hne]; [by destruct (Hno img)|].
    by rewrite lookup_insert_ne.
  - destruct (m !! k) eqn:E; [|exact Hp]. eapply Hupd; [exact E|].
    simpl. by rewrite orb_diag.
  - destruct (m !! k) eqn:E; [|exact Hp]. eapply Hupd; [exact E|].
    simpl. by rewrite orb_diag.
  - destruct (m !! k) eqn:E; [|exact Hp]. eapply Hupd; [exact E|].
    simpl. by rewrite orb_true_r.
  - destruct (m !! k) eqn:E; [|exact Hp]. destruct (decide _); [|exact Hp].
    eapply Hupd; [exact E|]. simpl. by rewrite orb_diag.
Qed.

(** ** The claims on the life-cycle calls *)

(** C1 (the code departs from the claim). The claim wants [FailJob] on a key
    that was never started to do nothing. On a new dashboard [FailJob] panics:
    it first calls [ProcessLog], which panics on an unknown key, so the test
    [if job, ok := iface.jobs[service]; ok] that follows is not reached.
    [SucceedJob] and [SetPushing], which have the same test, return and leave
    the state as it was. *)
Theorem FailJob_unknown_key_panics :
  FailJob "web" (Some "boom") fresh = (Panic "Could not find service: web", fresh)
  /\ SucceedJob "web" fresh = (Ok tt, fresh)
  /\ SetPushing "web" fresh = (Ok tt, fresh).
Proof.
  split; [|split].
  - by rewrite FailJob_unknown.
  - by rewrite SucceedJob_run.
  - by rewrite SetPushing_run.
Qed.

(** C3, as the code has it. Once [SetPushing] has set the flag of a started
    key, it stays set through every run of operations in which that key is
    not started again, whether the run completes or stops at a panic. *)
Theorem pushing_stays_set key ops s :
  mutex s = false ->
  is_Some (jobs s !! key) ->
  ~ started ops key ->
  pushing <$> jobs (SetPushing key s).2 !! key = Some true
  /\ pushing <$> jobs (run ops (SetPushing key s).2).2 !! key = Some true.
Proof.
  intros Hm [job Hjob] Hns.
  assert (mutex (SetPushing key s).2 = false
          /\ pushing <$> jobs (SetPushing key s).2 !! key = Some true) as [Hm1 Hp1].
  { rewrite SetPushing_run by assumption. rewrite Hjob. simpl.
    rewrite lookup_insert_eq. split; [by destruct s|reflexivity]. }
  split; [exact Hp1|].
  apply (run_preserves
           (fun s0 => mutex s0 = false /\ pushing <$> jobs s0 !! key = Some true));
    [|by split].
  intros o s0 Hin [Hm0 Hp0]. destruct (exec_spec o s0 Hm0) as (Hj & Hm0' & _).
  split; [exact Hm0'|]. rewrite Hj. apply jobs_after_pushing; [|exact Hp0].
  intros image ->. apply Hns. by exists image.
Qed.

Lemma pushing_stays_set_witness :
  mutex demo = false
  /\ is_Some (jobs demo !! "C")
  /\ ~ started [OpProcessLog "C" "pushing layer"; OpStartJob "D" "img-d";
                OpSucceedJob "C"; OpClose demo_order] "C"
  /\ pushing <$> jobs (SetPushing "C" demo).2 !! "C" = Some true
  /\ pushing <$> jobs (run [OpProcessLog "C" "pushing layer"; OpStartJob "D" "img-d";
                            OpSucceedJob "C"; OpClose demo_order]
                           (SetPushing "C" demo).2).2 !! "C" = Some true.
Proof.
  assert (~ started [OpProcessLog "C" "pushing layer"; OpStartJob "D" "img-d";
                     OpSucceedJob "C"; OpClose demo_order] "C") as Hns.
  { intros [image Hin]. repeat (apply elem_of_cons in Hin as [Hin|Hin]; [discriminate Hin|]).
    by apply elem_of_nil in Hin. }
  assert (is_Some (jobs demo !! "C")) as Hsome by (vm_compute; eauto).
  split; [reflexivity|]. split; [exact Hsome|]. split; [exact Hns|].
  exact (pushing_stays_set "C" _ demo eq_refl Hsome Hns).
Defined.

(** C3, as the claim has it, fails: [StartJob] on a key whose flag is set
    replaces the job by a new one, with the flag down. *)
Lemma StartJob_clears_pushing :
  pushing <$> jobs (run [OpStartJob "A" "img-a"; OpSetPushing "A"] fresh).2 !! "A"
  = Some true
  /\ pushing <$> jobs (run [OpStartJob "A" "img-a"; OpSetPushing "A";
                            OpStartJob "A" "img-a"] fresh).2 !! "A"
     = Some false.
Proof. split; reflexivity. Qed.

(** C6. [ProcessLog] looks the key up first and panics when it is absent;
    otherwise it trims the line, leaves the state (hence the ring buffer) as
    it is when nothing remains, and pushes what remains onto the ring buffer
    of the job when something does. It panics exactly when the key is absent
    from the registry, which, in a state reached from a new dashboard, means
    that the key was never started. *)
Theorem ProcessLog_spec key line s :
  mutex s = false ->
  match jobs s !! key with
  | None => ProcessLog key line s = (Panic ("Could not find service: " +:+ key), s)
  | Some job =>
    ProcessLog key line s =
    (Ok tt, if decide (TrimSpace line = "") then s
            else set_jobs (insert key (set_lastLogLines (Push (TrimSpace line)) job)) s)
  end
  /\ ((exists r, (ProcessLog key line s).1 = Panic r) <-> jobs s !! key = None)
  /\ (forall ops scr,
        run ops (NewInteractiveInterface scr) = (Ok tt, s) ->
        ((exists r, (ProcessLog key line s).1 = Panic r) <-> ~ started ops key)).
Proof.
  intros Hm.
  assert ((exists r, (ProcessLog key line s).1 = Panic r) <-> jobs s !! key = None) as Hiff.
  { destruct (jobs s !! key) as [job|] eqn:E.
    - rewrite (ProcessLog_known _ _ _ job) by assumption. simpl.
      split; [intros [r [=]]|done].
    - rewrite ProcessLog_unknown by assumption. simpl. split; eauto. }
  split; [|split; [exact Hiff|]].
  - destruct (jobs s !! key) as [job|] eqn:E.
    + rewrite (ProcessLog_known _ _ _ job) by assumption.
      destruct (decide (TrimSpace line <> "")), (decide (TrimSpace line = "")); done.
    + by apply ProcessLog_unknown.
  - intros ops scr Hrun. rewrite Hiff.
    pose proof (run_started ops (NewInteractiveInterface scr) s key eq_refl Hrun) as Hst.
    simpl in Hst. rewrite lookup_empty in Hst.
    rewrite eq_None_not_Some, Hst. split.
    + intros Hn Hs. apply Hn. by right.
    + intros Hn [[? [=]]|Hs]. done.
Qed.

Lemma ProcessLog_spec_witness :
  mutex demo = false
  /\ ProcessLog "C" "   " demo = (Ok tt, demo)
  /\ (rb_lines ∘ lastLogLines <$>
        jobs (ProcessLog "C" "  Step 2/4 : RUN make  " demo).2 !! "C")
     = Some ["Step 1/4 : FROM scratch"; "Step 2/4 : RUN make"]
  /\ ProcessLog "D" "Step 1/4" demo = (Panic "Could not find service: D", demo).
Proof.
  split; [reflexivity|].
  pose proof (ProcessLog_spec "C" "   " demo eq_refl) as (H1 & _).
  pose proof (ProcessLog_spec "C" "  Step 2/4 : RUN make  " demo eq_refl) as (H2 & _).
  pose proof (ProcessLog_spec "D" "Step 1/4" demo eq_refl) as (H3 & _).
  split; [exact H1|]. split; [|exact H3].
  rewrite (f_equal snd H2). reflexivity.
Defined.

(** C10, as the code has it. On a started key [SucceedJob] stores
    "succeeded" and [FailJob], called with an error that is not nil, stores
    "failed" (after pushing its "Error! ..." line), whatever the status was;
    both return normally and change nothing else. Hence a second terminal
    transition overwrites the first: after [FailJob] then [SucceedJob] the
    job is "succeeded", after [SucceedJob] then [FailJob] it is "failed", and
    nothing is reported. *)
Theorem terminal_transition_overwrites key job text s :
  mutex s = false ->
  jobs s !! key = Some job ->
  SucceedJob key s = (Ok tt, set_jobs (insert key (set_status "succeeded" job)) s)
  /\ FailJob key (Some text) s =
     (Ok tt, set_jobs (insert key
               (set_status "failed"
                  (set_lastLogLines (Push (TrimSpace ("Error! " +:+ text))) job))) s)
  /\ (FailJob key (Some text) ;; SucceedJob key) s =
     (Ok tt, set_jobs (insert key
               (set_status "succeeded"
                  (set_lastLogLines (Push (TrimSpace ("Error! " +:+ text))) job))) s)
  /\ (SucceedJob key ;; FailJob key (Some text)) s =
     (Ok tt, set_jobs (insert key
               (set_status "failed"
                  (set_lastLogLines (Push (TrimSpace ("Error! " +:+ text))) job))) s).
Proof.
  intros Hm Hj.
  assert (forall j', mutex (set_jobs (insert key j') s) = false) as Hm'
      by (intros; by destruct s).
  assert (forall j', jobs (set_jobs (insert key j') s) !! key = Some j') as Hj'
      by (intros; destruct s; simpl; apply lookup_insert_eq).
  assert (forall j1 j2, set_jobs (insert key j2) (set_jobs (insert key j1) s)
                        = set_jobs (insert key j2) s) as Hov.
  { intros. destruct s; unfold set_jobs; simpl. by rewrite insert_insert_eq. }
  split; [|split; [|split]].
  - rewrite SucceedJob_run by assumption. by rewrite Hj.
  - by apply FailJob_known.
  - unfold bind. rewrite (FailJob_known _ _ _ job) by assumption.
    rewrite SucceedJob_run by apply Hm'. rewrite Hj'. by rewrite Hov.
  - unfold bind. rewrite SucceedJob_run by assumption. rewrite Hj.
    rewrite (FailJob_known _ _ _ (set_status "succeeded" job)) by auto.
    by rewrite Hov.
Qed.

Lemma terminal_transition_overwrites_witness :
  mutex demo = false
  /\ (status <$> jobs demo !! "A") = Some "failed"
  /\ (status <$> jobs (SucceedJob "A" demo).2 !! "A") = Some "succeeded"
  /\ (status <$> jobs (FailJob "B" (Some "late") demo).2 !! "B") = Some "failed".
Proof.
  split; [reflexivity|]. split; [reflexivity|].
  assert (exists ja, jobs demo !! "A" = Some ja) as [ja Ea] by (vm_compute; eauto).
  assert (exists jb, jobs demo !! "B" = Some jb) as [jb Eb] by (vm_compute; eauto).
  destruct (terminal_transition_overwrites "A" ja "late" demo eq_refl Ea) as (Ha & _).
  destruct (terminal_transition_overwrites "B" jb "late" demo eq_refl Eb) as (_ & Hb & _).
  rewrite Ha, Hb. unfold set_jobs. cbn [snd jobs].
  rewrite !lookup_insert_eq. split; reflexivity.
Defined.

(** C10, as the claim has it, fails: [FailJob] evaluates [err.Error()]
    before anything else. With a nil error on the started key "C", which is
    building, and on the started key "B", which has succeeded, it panics at
    once: no line is pushed, no status is stored, and the job is not
    "failed". *)
Lemma FailJob_nil_error_keeps_status :
  mutex demo = false
  /\ (status <$> jobs demo !! "C") = Some ""
  /\ (status <$> jobs demo !! "B") = Some "succeeded"
  /\ FailJob "C" None demo = (Panic nil_dereference, demo)
  /\ FailJob "B" None demo = (Panic nil_dereference, demo)
  /\ (status <$> jobs (FailJob "C" None demo).2 !! "C") <> Some "failed"
  /\ (status <$> jobs (FailJob "B" None demo).2 !! "B") <> Some "failed".
Proof.
  rewrite !FailJob_nil. cbn [snd].
  repeat split; try reflexivity; vm_compute; discriminate.
Qed.

(** ** Close *)

Lemma close_loop_eq order :
  close_loop order =
  ((fun e => "logs/" +:+ e.1 +:+ ".log") <$> order,
   (fun e => image e.2) <$> order,
   (filter not_succeeded order).*1).
Proof.
  unfold close_loop.
  enough (forall a b c,
             foldl close_step (a, b, c) order =
             (a ++ ((fun e => "logs/" +:+ e.1 +:+ ".log") <$> order),
              b ++ ((fun e => image e.2) <$> order),
              c ++ (filter not_succeeded order).*1)) as H by apply (H [] [] []).
  induction order as [|[k j] order IH]; intros a b c; simpl.
  - by rewrite !app_nil_r.
  - rewrite filter_cons. unfold not_succeeded at 1. simpl.
    destruct (decide (status j <> "succeeded")); rewrite IH; simpl;
      by rewrite <- ?app_assoc.
Qed.

Lemma summary_choice (failedJobs : list string) (a b : string) :
  (if decide (0 < len failedJobs) then a else b)
  = (if decide (failedJobs = []) then b else a).
Proof.
  unfold len. destruct failedJobs as [|k l].
  - destruct (decide (0 < Z.of_nat (length (@nil string)))) as [H|_];
      [simpl in H; lia|]. by destruct (decide (@nil string = [])).
  - destruct (decide (0 < Z.of_nat (length (k :: l)))) as [_|H];
      [|simpl in H; lia]. by destruct (decide (k :: l = [])).
Qed.



Lemma enumerates_ab_two_building : enumerates (ab two_building) (jobs two_building).
Proof. unfold enumerates. vm_compute. first [reflexivity | apply perm_swap]. Qed.


(** C2, as the code has it. Two runs of [Close] on one state, not cancelled,
    each print one text of the same kind; the keys of the failure text, and
    the images of the success text, are the same in both up to their order,
    which is the order in which each run met the entries of the map. *)
Theorem Close_summary_up_to_order order1 order2 s :
  mutex s = false ->
  cancelled s = false ->
  enumerates order1 (jobs s) ->
  enumerates order2 (jobs s) ->
  exists failed1 failed2 images1 images2,
    failed1 ≡ₚ failed2
    /\ images1 ≡ₚ images2
    /\ (failed1 = [] <-> failed2 = [])
    /\ stdout (Close order1 s).2
       = stdout s ++ [if decide (failed1 = []) then success_summary images1
                      else failure_summary failed1]
    /\ stdout (Close order2 s).2
       = stdout s ++ [if decide (failed2 = []) then success_summary images2
                      else failure_summary failed2].
Proof.
  intros Hm Hc He1 He2.
  assert (forall order,
             stdout (Close order s).2
             = stdout s ++ [if decide ((filter not_succeeded order).*1 = [])
                            then success_summary ((fun e => image e.2) <$> order)
                            else failure_summary (filter not_succeeded order).*1]) as Hout.
  { intros order. rewrite Close_run by assumption. simpl.
    unfold close_state. rewrite close_loop_eq, Hc.
    rewrite summary_choice. by destruct s. }
  assert (order1 ≡ₚ order2) as Hp by (unfold enumerates in *; by rewrite He1, He2).
  exists (filter not_succeeded order1).*1, (filter not_succeeded order2).*1,
         ((fun e => image e.2) <$> order1), ((fun e => image e.2) <$> order2).
  assert ((filter not_succeeded order1).*1 ≡ₚ (filter not_succeeded order2).*1) as Hpf
      by (by rewrite Hp).
  split; [exact Hpf|]. split; [by rewrite Hp|]. split; [|split; apply Hout].
  split; intros E; rewrite E in Hpf.
  - by apply Permutation_nil in Hpf.
  - symmetry in Hpf. by apply Permutation_nil in Hpf.
Qed.

Lemma enumerates_ba_two_building : enumerates (ba two_building) (jobs two_building).
Proof. unfold enumerates. vm_compute. first [reflexivity | apply perm_swap]. Qed.

Lemma enumerates_ab_two_succeeded : enumerates (ab two_succeeded) (jobs two_succeeded).
Proof. unfold enumerates. vm_compute. first [reflexivity | apply perm_swap]. Qed.

Lemma enumerates_ba_two_succeeded : enumerates (ba two_succeeded) (jobs two_succeeded).
Proof. unfold enumerates. vm_compute. first [reflexivity | apply perm_swap]. Qed.

Lemma Close_summary_up_to_order_witness :
  mutex two_building = false
  /\ cancelled two_building = false
  /\ enumerates (ab two_building) (jobs two_building)
  /\ enumerates (ba two_building) (jobs two_building)
  /\ exists failed1 failed2 images1 images2,
      failed1 ≡ₚ failed2
      /\ images1 ≡ₚ images2
      /\ (failed1 = [] <-> failed2 = [])
      /\ stdout (Close (ab two_building) two_building).2
         = stdout two_building
           ++ [if decide (failed1 = []) then success_summary images1
               else failure_summary failed1]
      /\ stdout (Close (ba two_building) two_building).2
         = stdout two_building
           ++ [if decide (failed2 = []) then success_summary images2
               else failure_summary failed2].
Proof.
  split; [reflexivity|]. split; [reflexivity|].
  split; [apply enumerates_ab_two_building|].
  split; [apply enumerates_ba_two_building|].
  exact (Close_summary_up_to_order (ab two_building) (ba two_building) two_building
           eq_refl eq_refl enumerates_ab_two_building enumerates_ba_two_building).
Defined.

(** C2, as the claim has it, fails: the runtime may range over the map of one
    state in two orders, and the two texts printed then differ, in the
    failure text and in the success text alike. *)
Lemma Close_summary_depends_on_order :
  (enumerates (ab two_building) (jobs two_building)
   /\ enumerates (ba two_building) (jobs two_building)
   /\ cancelled two_building = false
   /\ stdout (Close (ab two_building) two_building).2
      = ["Failed to build the following jobs: a, b
See the logs folder for details.
"]
   /\ stdout (Close (ba two_building) two_building).2
      = ["Failed to build the following jobs: b, a
See the logs folder for details.
"])
  /\ (enumerates (ab two_succeeded) (jobs two_succeeded)
      /\ enumerates (ba two_succeeded) (jobs two_succeeded)
      /\ cancelled two_succeeded = false
      /\ stdout (Close (ab two_succeeded) two_succeeded).2
         = ["Successfully built: img-a img-b
"]
      /\ stdout (Close (ba two_succeeded) two_succeeded).2
         = ["Successfully built: img-b img-a
"]).
Proof.
  split.
  - split; [apply enumerates_ab_two_building|].
    split; [apply enumerates_ba_two_building|]. repeat split; reflexivity.
  - split; [apply enumerates_ab_two_succeeded|].
    split; [apply enumerates_ba_two_succeeded|]. repeat split; reflexivity.
Qed.

(** ** The order of the keys and the sort *)

Lemma key_lt_compare a b : key_lt a b <-> String.compare a b = Lt.
Proof.
  unfold key_lt, String.ltb. destruct (String.compare a b); split; congruence.
Qed.

Lemma key_lt_trans a b c : key_lt a b -> key_lt b c -> key_lt a c.
Proof.
  rewrite !key_lt_compare.
  change String.compare with OrderedTypeEx.String_as_OT.cmp.
  rewrite !OrderedTypeEx.String_as_OT.cmp_lt.
  apply OrderedTypeEx.String_as_OT.lt_trans.
Qed.

Lemma key_lt_irrefl a : ~ key_lt a a.
Proof.
  rewrite key_lt_compare.
  change String.compare with OrderedTypeEx.String_as_OT.cmp.
  rewrite OrderedTypeEx.String_as_OT.cmp_lt. intros H.
  by apply OrderedTypeEx.String_as_OT.lt_not_eq in H.
Qed.

Lemma key_lt_total a b : a <> b -> key_lt a b \/ key_lt b a.
Proof.
  intros Hne. rewrite !key_lt_compare.
  destruct (String.compare a b) eqn:E.
  - by apply String.compare_eq_iff in E.
  - by left.
  - right. rewrite String.compare_antisym, E. reflexivity.
Qed.

Lemma insert_job_Permutation j l : insert_job j l ≡ₚ j :: l.
Proof.
  induction l as [|x l IH]; simpl; [done|].
  destruct (less j x); [done|]. rewrite IH. apply perm_swap.
Qed.

Lemma sortJobs_Permutation l : sortJobs l ≡ₚ l.
Proof.
  induction l as [|x l IH]; simpl; [done|].
  by rewrite insert_job_Permutation, IH.
Qed.

Lemma sortJobs_length l : length (sortJobs l) = length l.
Proof. by rewrite sortJobs_Permutation. Qed.

Lemma insert_job_sorted j l :
  StronglySorted job_lt l ->
  (forall x, x ∈ l -> service x <> service j) ->
  StronglySorted job_lt (insert_job j l).
Proof.
  induction 1 as [|x l Hs IH Hx]; intros Hne; simpl.
  - repeat constructor.
  - unfold less. destruct (String.ltb (service j) (service x)) eqn:E.
    + constructor; [by constructor|]. constructor; [exact E|].
      eapply Forall_impl; [exact Hx|]. intros y Hy. by apply (key_lt_trans _ (service x)).
    + assert (job_lt x j) as Hxj.
      { destruct (key_lt_total (service x) (service j)) as [H|H]; [|done|].
        - apply Hne. by left.
        - unfold key_lt in H. congruence. }
      constructor.
      * apply IH. intros y Hy. apply Hne. by right.
      * rewrite insert_job_Permutation. by constructor.
Qed.

Lemma sortJobs_sorted l :
  NoDup (service <$> l) -> StronglySorted job_lt (sortJobs l).
Proof.
  induction l as [|x l IH]; simpl; intros Hnd; [constructor|].
  apply NoDup_cons in Hnd as [Hx Hnd].
  apply insert_job_sorted; [by apply IH|].
  intros y Hy E. apply Hx. rewrite <- E.
  apply list_elem_of_fmap. exists y. split; [done|]. by rewrite <- (sortJobs_Permutation l).
Qed.

(** ** The classification *)

Lemma classify_eq order :
  classify order =
  (filter is_succeeded order.*2, filter is_failed order.*2, filter is_curr order.*2).
Proof.
  unfold classify.
  enough (forall a b c,
             foldl classify_step (a, b, c) order =
             (a ++ filter is_succeeded order.*2, b ++ filter is_failed order.*2,
              c ++ filter is_curr order.*2)) as H by apply (H [] [] []).
  induction order as [|[k j] order IH]; intros a b c; simpl.
  - by rewrite !app_nil_r.
  - rewrite !filter_cons. cbn [snd].
    destruct (decide (status j = "succeeded")) as [E|E];
      [|destruct (decide (status j = "failed")) as [E'|E']];
      rewrite IH; repeat case_decide;
      unfold is_succeeded, is_failed, is_curr in *;
      try (exfalso; intuition congruence);
      by rewrite <- ?app_assoc.
Qed.

Lemma enumerates_values order m :
  enumerates order m -> registry_ok m ->
  NoDup (service <$> order.*2)
  /\ forall j, j ∈ order.*2 <-> m !! service j = Some j.
Proof.
  unfold enumerates. intros He Hok.
  assert (service <$> (map_to_list m).*2 = (map_to_list m).*1) as Hkeys.
  { rewrite <- list_fmap_compose. apply list_fmap_ext.
    intros i [k j] Hin. apply list_elem_of_lookup_2, elem_of_map_to_list in Hin.
    simpl. by apply Hok. }
  split.
  - rewrite He, Hkeys. apply NoDup_fst_map_to_list.
  - intros j. rewrite He, list_elem_of_fmap. split.
    + intros ([k j'] & -> & Hin). apply elem_of_map_to_list in Hin. simpl.
      by rewrite (Hok _ _ Hin).
    + intros Hj. exists (service j, j). split; [done|]. by apply elem_of_map_to_list.
Qed.

(** Each slice, once sorted, holds the jobs of its status, each once, in the
    ascending order of the keys. *)
Lemma sorted_slice (P : interactiveInterfaceJob -> Prop) `{!forall j, Decision (P j)} order m :
  enumerates order m -> registry_ok m ->
  StronglySorted job_lt (sortJobs (filter P order.*2))
  /\ forall j, j ∈ sortJobs (filter P order.*2) <-> m !! service j = Some j /\ P j.
Proof.
  intros He Hok. destruct (enumerates_values order m He Hok) as [Hnd Hin]. split.
  - apply sortJobs_sorted. eapply sublist_NoDup; [exact Hnd|].
    apply fmap_sublist, sublist_filter.
  - intros j. rewrite sortJobs_Permutation, list_elem_of_filter, Hin. tauto.
Qed.

(** The order in which the jobs are drawn does not depend on the order in
    which the map was ranged over. *)
Lemma render_order_unique order1 order2 m :
  enumerates order1 m -> enumerates order2 m -> registry_ok m ->
  render_order order1 = render_order order2.
Proof.
  intros He1 He2 Hok. unfold render_order. rewrite !classify_eq.
  assert (forall (P : interactiveInterfaceJob -> Prop) `{!forall j, Decision (P j)},
             sortJobs (filter P order1.*2) = sortJobs (filter P order2.*2)) as Heq.
  { intros P HP.
    destruct (sorted_slice P order1 m He1 Hok) as [Hs1 Hin1].
    destruct (sorted_slice P order2 m He2 Hok) as [Hs2 _].
    apply (StronglySorted_unique_strong job_lt); [|done|done|].
    - intros x1 x2 _ _ H12 H21. destruct (key_lt_irrefl (service x1)).
      by apply (key_lt_trans _ (service x2)).
    - rewrite !sortJobs_Permutation. unfold enumerates in *. by rewrite He1, He2. }
  by rewrite (Heq is_failed _), (Heq is_curr _).
Qed.

(** ** The job loops *)

Lemma Peek_length k b : (length (Peek k b) <= Z.to_nat k)%nat.
Proof. unfold Peek. rewrite length_drop. lia. Qed.

Lemma render_jobs_stop header height lpj js cur rem :
  cur + 1 >= height - 2 -> render_jobs header height lpj js cur rem = ([], cur, rem).
Proof. intros Hb. destruct js; simpl; [done|]. by case_decide. Qed.

(** The blocks of one loop: they belong to the first jobs of the slice, in
    order; the [i]-th asks [Peek] for one line more than [linesPerJob - 1]
    exactly when [i] is below the remainder at the entry of the loop. *)
Lemma render_jobs_blocks header height lpj js cur rem :
  let '(blocks, cur', rem') := render_jobs header height lpj js cur rem in
  blk_job <$> blocks = take (length blocks) js
  /\ (forall i b, blocks !! i = Some b ->
        blk_logLinesToDisplay b = lpj - 1 + (if decide (Z.of_nat i < rem) then 1 else 0)
        /\ blk_lines b = Peek (blk_logLinesToDisplay b) (lastLogLines (blk_job b))
        /\ blk_header b = header (blk_job b))
  /\ rem' = (if decide (rem > 0) then Z.max 0 (rem - len blocks) else rem)
  /\ ((length blocks < length js)%nat -> cur' + 1 >= height - 2)
  /\ cur <= cur'.
Proof.
  revert cur rem. induction js as [|job rest IH]; intros cur rem; simpl.
  { split; [done|]. split; [intros i b [=]|]. split; [|split; [lia|lia]].
    unfold len. simpl. case_decide; lia. }
  destruct (decide (cur + 1 >= height - 2)) as [Hb|Hb].
  { split; [done|]. split; [intros i b [=]|]. split; [|split; [done|lia]].
    unfold len. simpl. case_decide; lia. }
  destruct (decide (rem > 0)) as [Hr|Hr].
  - specialize (IH (cur + 1 + Z.of_nat (length (Peek (lpj - 1 + 1) (lastLogLines job))))
                   (rem - 1)).
    destruct (render_jobs header height lpj rest _ _) as [[bs c] r].
    destruct IH as (Hj & Hb' & Hrem & Hbrk & Hle).
    split; [simpl; f_equal; exact Hj|]. split; [|split; [|split]].
    + intros [|i] b; simpl.
      * intros [= <-]. simpl. split; [destruct (decide (Z.of_nat 0 < rem)); lia|done].
      * intros Hi. destruct (Hb' i b Hi) as (H1 & H2 & H3).
        split; [|done]. rewrite H1. repeat case_decide; lia.
    + rewrite Hrem. unfold len. simpl length. repeat case_decide; lia.
    + simpl. intros Hlt. apply Hbrk. lia.
    + lia.
  - specialize (IH (cur + 1 + Z.of_nat (length (Peek (lpj - 1) (lastLogLines job)))) rem).
    destruct (render_jobs header height lpj rest _ _) as [[bs c] r].
    destruct IH as (Hj & Hb' & Hrem & Hbrk & Hle).
    split; [simpl; f_equal; exact Hj|]. split; [|split; [|split]].
    + intros [|i] b; simpl.
      * intros [= <-]. simpl. split; [destruct (decide (Z.of_nat 0 < rem)); lia|done].
      * intros Hi. destruct (Hb' i b Hi) as (H1 & H2 & H3).
        split; [|done]. rewrite H1. repeat case_decide; lia.
    + rewrite Hrem. repeat case_decide; lia.
    + simpl. intros Hlt. apply Hbrk. lia.
    + lia.
Qed.

(** While remainder lines are left there is room for the next header: the
    jobs below the remainder are all drawn. *)
Lemma render_jobs_first header height lpj js cur rem :
  1 <= lpj ->
  (rem > 0 -> cur + rem * (lpj + 1) <= height - 3 + lpj) ->
  let '(blocks, cur', rem') := render_jobs header height lpj js cur rem in
  (forall i, Z.of_nat i < rem -> (i < length js)%nat -> (i < length blocks)%nat)
  /\ (rem' > 0 -> cur' + rem' * (lpj + 1) <= height - 3 + lpj).
Proof.
  intros Hlpj. revert cur rem. induction js as [|job rest IH]; intros cur rem Hinv; simpl.
  { split; [intros; lia|done]. }
  destruct (decide (rem > 0)) as [Hr|Hr].
  - specialize (Hinv Hr).
    destruct (decide (cur + 1 >= height - 2)) as [Hb|Hb]; [nia|].
    pose proof (Peek_length (lpj - 1 + 1) (lastLogLines job)) as Hpk.
    specialize (IH (cur + 1 + Z.of_nat (length (Peek (lpj - 1 + 1) (lastLogLines job))))
                   (rem - 1)).
    destruct (render_jobs header height lpj rest _ _) as [[bs c] r].
    destruct IH as [Hfirst Hinv']; [intros; nia|].
    split; [|exact Hinv']. intros [|i] Hi Hlen; simpl in *; [lia|].
    apply ->Nat.succ_lt_mono. apply Hfirst; lia.
  - pose proof (render_jobs_blocks header height lpj (job :: rest) cur rem) as Hbl.
    simpl in Hbl.
    destruct (decide (cur + 1 >= height - 2)) as [Hb|Hb].
    { split; [intros; lia|intros; lia]. }
    destruct (decide (rem > 0)); [done|].
    destruct (render_jobs header height lpj rest _ _) as [[bs c] r].
    destruct Hbl as (_ & _ & Hrem & _). split; [intros; lia|].
    destruct (decide (rem > 0)); [done|]. lia.
Qed.

(** ** The layout *)

Lemma linesPerJob_floor height n :
  0 < n -> linesPerJob height n = Z.max 2 ((height - 1) / n).
Proof.
  intros Hn. unfold linesPerJob.
  destruct (Z_lt_le_dec (height - 1) 0) as [Hneg|Hpos].
  - assert ((height - 1) ÷ n <= 0) as Hq.
    { pose proof (Z.quot_pos (- (height - 1)) n ltac:(lia) Hn) as H.
      rewrite Z.quot_opp_l in H by lia. lia. }
    assert ((height - 1) / n < 0) as Hd by (apply Z.div_lt_upper_bound; lia).
    case_decide; lia.
  - rewrite Z.quot_div_nonneg by lia. case_decide; lia.
Qed.

Lemma remainder_small height n :
  0 < n -> numRemainderLines height n > 0 ->
  2 <= linesPerJob height n /\ numRemainderLines height n < n.
Proof.
  intros Hn. unfold numRemainderLines. rewrite linesPerJob_floor by assumption.
  pose proof (Z.div_mod (height - 1) n ltac:(lia)) as Hdm.
  pose proof (Z.mod_pos_bound (height - 1) n Hn) as Hmod.
  intros Hrem. split; [lia|].
  destruct (Z.max_spec 2 ((height - 1) / n)) as [[Hlt ->]|[Hle ->]]; nia.
Qed.

Lemma filter_count (P : interactiveInterfaceJob -> Prop) `{!forall j, Decision (P j)} order m :
  enumerates order m ->
  len (sortJobs (filter P order.*2)) = len (filter P (map_to_list m).*2).
Proof.
  unfold enumerates, len. intros He. by rewrite sortJobs_length, He.
Qed.

(** C7. For a registry with [n > 0] failed or building jobs and a terminal of
    height [H]: [linesPerJob] is [floor ((H - 1) / n)], or 2 when that is
    less; the remainder is [(H - 1) - linesPerJob * n]; the jobs are drawn in
    the order failed jobs by ascending key, then building jobs by ascending
    key, the blocks drawn being those of the first jobs of that order; the
    block of rank [i] asks for [linesPerJob - 1] log lines, and for one more
    exactly when [i] is below the remainder; and every job whose rank is
    below the remainder is drawn. *)
Theorem layout_remainder order m height :
  enumerates order m ->
  registry_ok m ->
  let n := len (render_order order) in
  let lpj := linesPerJob height n in
  let rem := numRemainderLines height n in
  let blocks := (layout order height).1 ++ (layout order height).2 in
  0 < n ->
  n = num_failed m + num_curr m
  /\ (exists failedJobs currJobs,
        render_order order = failedJobs ++ currJobs
        /\ StronglySorted job_lt failedJobs
        /\ (forall j, j ∈ failedJobs <-> m !! service j = Some j /\ is_failed j)
        /\ StronglySorted job_lt currJobs
        /\ (forall j, j ∈ currJobs <-> m !! service j = Some j /\ is_curr j))
  /\ lpj = Z.max 2 ((height - 1) / n)
  /\ rem = height - 1 - lpj * n
  /\ blk_job <$> blocks = take (length blocks) (render_order order)
  /\ (forall i b, blocks !! i = Some b ->
        blk_logLinesToDisplay b = lpj - 1 + (if decide (Z.of_nat i < rem) then 1 else 0)
        /\ blk_lines b = Peek (blk_logLinesToDisplay b) (lastLogLines (blk_job b)))
  /\ (forall i, Z.of_nat i < rem ->
        exists b, blocks !! i = Some b /\ render_order order !! i = Some (blk_job b)).
Proof.
  intros He Hok n lpj rem blocks Hn.
  subst n lpj rem blocks. unfold layout, render_order in *. rewrite classify_eq in *.
  destruct (sorted_slice is_failed order m He Hok) as [HsF HinF].
  destruct (sorted_slice is_curr order m He Hok) as [HsC HinC].
  pose proof (filter_count is_failed order m He) as HcF.
  pose proof (filter_count is_curr order m He) as HcC.
  set (F := sortJobs (filter is_failed order.*2)) in *.
  set (C := sortJobs (filter is_curr order.*2)) in *.
  assert (len (F ++ C) = len F + len C) as Hlen
      by (unfold len; rewrite length_app; lia).
  rewrite Hlen in Hn |- *. clear Hlen.
  set (n := len F + len C) in *.
  set (lpj := linesPerJob height n).
  set (rem := numRemainderLines height n).
  assert (lpj = Z.max 2 ((height - 1) / n)) as Hlpj by (by apply linesPerJob_floor).
  assert (rem > 0 -> 2 <= lpj /\ rem < n) as Hsmall by (by apply remainder_small).
  assert (rem = height - 1 - lpj * n) as Hrem by reflexivity.
  pose proof (render_jobs_blocks failed_header height lpj F 0 rem) as H1.
  pose proof (render_jobs_first failed_header height lpj F 0 rem ltac:(lia)) as H1'.
  destruct (render_jobs failed_header height lpj F 0 rem) as [[fb c1] r1].
  destruct H1 as (Hj1 & Hb1 & Hr1 & Hbrk1 & _).
  destruct H1' as [Hfirst1 Hinv1]; [intros Hpos; destruct (Hsmall Hpos); nia|].
  assert (length fb <= length F)%nat as Hfb.
  { apply (f_equal length) in Hj1. rewrite length_fmap, length_take in Hj1. lia. }
  pose proof (render_jobs_blocks curr_header height lpj C c1 r1) as H2.
  pose proof (render_jobs_first curr_header height lpj C c1 r1 ltac:(lia) Hinv1) as H2'.
  destruct (decide (length fb < length F)%nat) as [Hbroke|Hfull].
  - rewrite render_jobs_stop in * by auto. simpl. rewrite app_nil_r.
    split; [unfold num_failed, num_curr; lia|].
    split; [by exists F, C|]. split; [exact Hlpj|]. split; [exact Hrem|].
    assert (blk_job <$> fb = take (length fb) (F ++ C)) as Hpre.
    { rewrite Hj1. by rewrite take_app_le by lia. }
    split; [exact Hpre|]. split.
    + intros i b Hi. destruct (Hb1 i b Hi) as (? & ? & _). done.
    + intros i Hi.
      assert (i < length fb)%nat as Hlt.
      { destruct (decide (i < length F)%nat); [by apply Hfirst1|].
        assert (length fb < length fb)%nat; [apply Hfirst1; lia|lia]. }
      destruct (lookup_lt_is_Some_2 fb i Hlt) as [b Hb]. exists b. split; [done|].
      apply (f_equal (fun l => l !! i)) in Hpre.
      rewrite list_lookup_fmap, Hb, lookup_take_lt in Hpre by lia. done.
  - assert (length fb = length F) as Hfl by lia.
    destruct (render_jobs curr_header height lpj C c1 r1) as [[cb c2] r2].
    destruct H2 as (Hj2 & Hb2 & _). destruct H2' as [Hfirst2 _]. simpl.
    split; [unfold num_failed, num_curr; lia|].
    split; [by exists F, C|]. split; [exact Hlpj|]. split; [exact Hrem|].
    assert (blk_job <$> fb ++ cb = take (length (fb ++ cb)) (F ++ C)) as Hpre.
    { rewrite fmap_app, Hj1, Hj2, length_app, Hfl.
      rewrite take_app_add', take_ge by lia. done. }
    assert (r1 = if decide (rem > 0) then Z.max 0 (rem - len F) else rem) as Hr1'
        by (unfold len in *; by rewrite <- Hfl).
    split; [exact Hpre|]. split.
    + intros i b Hi. apply lookup_app_Some in Hi as [Hi|[Hge Hi]].
      * destruct (Hb1 i b Hi) as (? & ? & _). done.
      * destruct (Hb2 _ b Hi) as (Ha & ? & _). split; [|done].
        rewrite Ha, Hr1'. unfold len. rewrite <- Hfl. repeat case_decide; lia.
    + intros i Hi.
      assert (i < length (fb ++ cb))%nat as Hlt.
      { rewrite length_app. destruct (decide (i < length F)%nat) as [Hlt|Hge].
        - specialize (Hfirst1 i Hi Hlt). lia.
        - assert (i - length F < length cb)%nat; [|lia].
          destruct (Hsmall ltac:(lia)) as [_ Hrn]. unfold n, len in Hrn.
          apply Hfirst2; [|lia]. rewrite Hr1'. unfold len. case_decide; lia. }
      destruct (lookup_lt_is_Some_2 _ i Hlt) as [b Hb]. exists b. split; [done|].
      apply (f_equal (fun l => l !! i)) in Hpre.
      rewrite list_lookup_fmap, Hb, lookup_take_lt in Hpre by lia. done.
Qed.

(** ** A pass on a backend that does not fail *)

Lemma add_calls_nil s : scr_fault (screen s) = None -> add_calls [] s = s.
Proof.
  destruct s as [? ? [w h cs f] ? ? ? ? ?]; simpl. intros ->.
  unfold add_calls, set_screen; simpl. by rewrite app_nil_r.
Qed.

Lemma add_calls_app c1 c2 s : add_calls c2 (add_calls c1 s) = add_calls (c1 ++ c2) s.
Proof.
  destruct s as [? ? [w h cs f] ? ? ? ? ?].
  unfold add_calls, set_screen; simpl. by rewrite app_assoc.
Qed.

Lemma add_calls_fault cs s : scr_fault (screen (add_calls cs s)) = None.
Proof. reflexivity. Qed.

Lemma emits_ret : emits (ret tt) [].
Proof. intros s Hf. unfold ret. by rewrite add_calls_nil. Qed.

Lemma emits_bind (m1 m2 : M unit) c1 c2 :
  emits m1 c1 -> emits m2 c2 -> emits (m1 ;; m2) (c1 ++ c2).
Proof.
  intros H1 H2 s Hf. unfold bind. rewrite (H1 s Hf).
  rewrite (H2 _ (add_calls_fault c1 s)). by rewrite add_calls_app.
Qed.

Lemma emits_backend c : emits (backend c) [c].
Proof. intros s Hf. unfold backend. rewrite Hf. reflexivity. Qed.

Lemma emits_foreach {A} (l : list A) (f : A -> M unit) (g : A -> list call) :
  (forall x, emits (f x) (g x)) -> emits (foreach l f) (concat (g <$> l)).
Proof.
  intros Hf. induction l as [|x l IH]; simpl; [apply emits_ret|].
  by apply emits_bind.
Qed.

Lemma emits_foreach_single {A} (l : list A) (f : A -> M unit) (g : A -> call) :
  (forall x, emits (f x) [g x]) -> emits (foreach l f) (g <$> l).
Proof.
  intros Hf. induction l as [|x l IH]; simpl; [apply emits_ret|].
  by apply (emits_bind _ _ [g x]).
Qed.

Lemma emits_displayAndTruncateString width y s style :
  emits (displayAndTruncateString width y s style) (cells width y s style).
Proof.
  unfold displayAndTruncateString, cells. apply emits_bind.
  - apply emits_foreach_single. intros c. apply emits_backend.
  - apply emits_foreach_single. intros i. apply emits_backend.
Qed.

Lemma emits_draw_block width hs ls b :
  emits (draw_block width hs ls b) (block_calls width hs ls b).
Proof.
  unfold draw_block, block_calls. apply emits_bind.
  - apply emits_displayAndTruncateString.
  - apply emits_foreach. intros c. apply emits_displayAndTruncateString.
Qed.

Lemma redraw_locked_run order width height s :
  scr_fault (screen s) = None ->
  redraw_locked order width height s =
  (Ok tt, add_calls (frame_calls order width height (screenStyle s)) s).
Proof.
  intros Hf. unfold redraw_locked, frame_calls, layout, render_order.
  unfold bind at 1. unfold get. rewrite classify_eq.
  assert (forall F C : list interactiveInterfaceJob, len (F ++ C) = len F + len C) as Hlen
      by (intros; unfold len; rewrite length_app; lia).
  assert (forall l, len (sortJobs l) = len l) as Hsl
      by (intros; unfold len; by rewrite sortJobs_length).
  rewrite Hlen.
  destruct (decide (_ = 0)); [unfold ret; by rewrite add_calls_nil|].
  destruct (render_jobs failed_header _ _ _ _ _) as [[fb c1] r1].
  destruct (render_jobs curr_header _ _ _ _ _) as [[cb c2] r2]. simpl.
  rewrite !Hsl.
  refine ((_ : emits _ _) s Hf).
  apply emits_bind; [apply emits_foreach; intros; apply emits_draw_block|].
  apply emits_bind; [apply emits_foreach; intros; apply emits_draw_block|].
  apply emits_bind; [apply emits_displayAndTruncateString|apply emits_backend].
Qed.

Lemma redrawScreen_ok order close_order s :
  mutex s = false ->
  scr_fault (screen s) = None ->
  redrawScreen order close_order s =
  (Ok tt, add_calls (CallSize :: frame_calls order (scr_width (screen s))
                                   (scr_height (screen s)) (screenStyle s)) s).
Proof.
  intros Hm Hf. rewrite redrawScreen_run, redraw_unprotected_run by assumption.
  unfold Size, bind, backend, get, ret. rewrite Hf.
  rewrite redraw_locked_run by reflexivity. simpl.
  destruct s as [? ? [w h cs f] ? ? ? ? ?]; simpl in *; subst.
  unfold add_calls, set_mutex, set_screen; simpl. by rewrite <- app_assoc.
Qed.

(** ** The summary row *)



Lemma render_order_length order :
  len (render_order order) = len (filter is_failed order.*2) + len (filter is_curr order.*2).
Proof.
  unfold render_order, len. rewrite classify_eq, length_app, !sortJobs_length. lia.
Qed.

Lemma registry_ok_check m :
  Forall (fun e => service e.2 = e.1) (map_to_list m) -> registry_ok m.
Proof.
  intros Hall k j Hk. rewrite Forall_forall in Hall.
  apply (Hall (k, j)). by apply elem_of_map_to_list.
Qed.





(** ** Nothing to draw *)

Lemma filter_none {A} (P : A -> Prop) `{!forall x, Decision (P x)} (l : list A) :
  (forall x, x ∈ l -> ~ P x) -> filter P l = [].
Proof.
  induction l as [|x l IH]; intros Hall; [reflexivity|].
  rewrite filter_cons. destruct (decide (P x)) as [Hp|_].
  - destruct (Hall x); [by left|done].
  - apply IH. intros y Hy. apply Hall. by right.
Qed.

(** C9. When every job of the registry is succeeded (none failed, none
    building; an empty registry too), the part of [redrawScreen] that draws
    returns at once: it calls the backend not at all, whatever the size and
    the state; so a pass is the call of [Size] and nothing else: no row of a
    job, no summary row, no [Show]. *)
Theorem nothing_to_draw order close_order s :
  enumerates order (jobs s) ->
  (forall k j, jobs s !! k = Some j -> status j = "succeeded") ->
  (forall width height s0, redraw_locked order width height s0 = (Ok tt, s0))
  /\ (mutex s = false ->
      redrawScreen order close_order s =
      match Size s with
      | (Ok _, s1) => (Ok tt, s1)
      | (Panic r, s1) => (Panic r, close_state close_order s1)
      | (Deadlock, s1) => (Deadlock, s1)
      end)
  /\ (mutex s = false -> scr_fault (screen s) = None ->
      redrawScreen order close_order s = (Ok tt, add_calls [CallSize] s)).
Proof.
  intros He Hall.
  assert (forall j, j ∈ order.*2 -> status j = "succeeded") as Hall'.
  { intros j Hj. apply list_elem_of_fmap in Hj as ([k j'] & -> & Hin).
    unfold enumerates in He. rewrite He in Hin.
    apply elem_of_map_to_list in Hin. by apply (Hall k). }
  assert (filter is_failed order.*2 = []) as HF.
  { apply filter_none. intros j Hj. unfold is_failed. rewrite (Hall' j Hj). discriminate. }
  assert (filter is_curr order.*2 = []) as HC.
  { apply filter_none. intros j Hj [Hn _]. by apply Hn, Hall'. }
  assert (forall width height s0, redraw_locked order width height s0 = (Ok tt, s0)) as Hlocked.
  { intros width height s0. unfold redraw_locked, bind, get.
    rewrite classify_eq, HF, HC. reflexivity. }
  split; [exact Hlocked|]. split.
  - intros Hm. rewrite redrawScreen_run, redraw_unprotected_run by assumption.
    destruct (backend_only_Size s) as (Ho & _ & _).
    apply only_screen_fields in Ho. destruct Ho as (_ & Hmx & _).
    destruct (Size s) as [[size|r|] s1]; simpl in *; try reflexivity.
    rewrite Hlocked. simpl. rewrite set_mutex_restore by congruence. reflexivity.
  - intros Hm Hf. rewrite redrawScreen_ok by assumption.
    unfold frame_calls. rewrite render_order_length, HF, HC. reflexivity.
Qed.

Lemma all_succeeded_check (m : gmap string interactiveInterfaceJob) :
  Forall (fun e => status e.2 = "succeeded") (map_to_list m) ->
  forall k j, m !! k = Some j -> status j = "succeeded".
Proof.
  intros Hall k j Hk. rewrite Forall_forall in Hall.
  apply (Hall (k, j)). by apply elem_of_map_to_list.
Qed.

Lemma nothing_to_draw_witness :
  enumerates (ab two_succeeded) (jobs two_succeeded)
  /\ (forall k j, jobs two_succeeded !! k = Some j -> status j = "succeeded")
  /\ redrawScreen (ab two_succeeded) (ab two_succeeded) two_succeeded
     = (Ok tt, add_calls [CallSize] two_succeeded).
Proof.
  assert (forall k j, jobs two_succeeded !! k = Some j -> status j = "succeeded") as Hall.
  { apply all_succeeded_check. vm_compute. repeat constructor. }
  split; [apply enumerates_ab_two_succeeded|]. split; [exact Hall|].
  destruct (nothing_to_draw (ab two_succeeded) (ab two_succeeded) two_succeeded
              enumerates_ab_two_succeeded Hall) as (_ & _ & H).
  apply H; reflexivity.
Defined.

Lemma registry_ok_demo : registry_ok (jobs demo).
Proof. apply registry_ok_check. vm_compute. repeat constructor. Qed.

Lemma enumerates_demo : enumerates demo_order (jobs demo).
Proof. unfold enumerates. vm_compute. reflexivity. Qed.

Lemma layout_remainder_witness :
  enumerates demo_order (jobs demo)
  /\ registry_ok (jobs demo)
  /\ 0 < len (render_order demo_order)
  /\ numRemainderLines 8 (len (render_order demo_order)) = 1
  /\ exists b, ((layout demo_order 8).1 ++ (layout demo_order 8).2) !! 0%nat = Some b
               /\ render_order demo_order !! 0%nat = Some (blk_job b)
               /\ blk_logLinesToDisplay b = 3.
Proof.
  split; [apply enumerates_demo|]. split; [apply registry_ok_demo|].
  split; [reflexivity|]. split; [reflexivity|].
  pose proof (layout_remainder demo_order (jobs demo) 8 enumerates_demo registry_ok_demo
                eq_refl) as (_ & _ & _ & _ & _ & Hallow & Hfirst).
  destruct (Hfirst 0%nat eq_refl) as (b & Hb & Hro).
  exists b. split; [exact Hb|]. split; [exact Hro|].
  destruct (Hallow 0%nat b Hb) as [-> _]. reflexivity.
Defined.

(** * Further properties of the dashboard *)

(** ** Unknown keys *)

(** X1. On a key that is not in the registry [SucceedJob] and [SetPushing]
    return normally and leave the whole state as it was, the mutex released. *)
Theorem unknown_key_noops key s :
  mutex s = false ->
  jobs s !! key = None ->
  SucceedJob key s = (Ok tt, s) /\ SetPushing key s = (Ok tt, s).
Proof.
  intros Hm Hk. rewrite SucceedJob_run, SetPushing_run by assumption.
  by rewrite Hk.
Qed.

Lemma unknown_key_noops_witness :
  mutex demo = false
  /\ jobs demo !! "D" = None
  /\ SucceedJob "D" demo = (Ok tt, demo) /\ SetPushing "D" demo = (Ok tt, demo).
Proof.
  split; [reflexivity|]. split; [reflexivity|].
  exact (unknown_key_noops "D" demo eq_refl eq_refl).
Defined.

(** X2. [FailJob] panics exactly when its error is nil or its key is not in
    the registry. With a nil error the panic is the nil dereference of
    [err.Error()]; with an error and an unknown key it is that of
    [ProcessLog]. Either panic leaves the state as it was, and in every case
    [FailJob] does not block and the mutex is free again when it is left. *)
Theorem FailJob_panics_iff_nil_or_unknown key err s :
  mutex s = false ->
  ((exists r, (FailJob key err s).1 = Panic r) <-> err = None \/ jobs s !! key = None)
  /\ (err = None -> FailJob key err s = (Panic nil_dereference, s))
  /\ (err <> None -> jobs s !! key = None ->
      FailJob key err s = (Panic ("Could not find service: " +:+ key), s))
  /\ (FailJob key err s).1 <> Deadlock
  /\ mutex (FailJob key err s).2 = false.
Proof.
  intros Hm. destruct err as [text|].
  - destruct (jobs s !! key) as [job|] eqn:E.
    + rewrite (FailJob_known _ _ _ job) by assumption. simpl.
      split; [split; [intros [r [=]]|intros [[=]|[=]]]|].
      split; [done|]. split; [done|]. split; [done|]. by destruct s.
    + rewrite FailJob_unknown by assumption. simpl.
      split; [split; eauto|]. split; [done|]. auto.
  - rewrite FailJob_nil. simpl.
    split; [split; eauto|]. split; [done|]. split; [done|]. auto.
Qed.

Lemma FailJob_panics_iff_nil_or_unknown_witness :
  mutex demo = false
  /\ FailJob "D" (Some "boom") demo = (Panic "Could not find service: D", demo)
  /\ FailJob "A" None demo = (Panic nil_dereference, demo).
Proof.
  split; [reflexivity|].
  destruct (FailJob_panics_iff_nil_or_unknown "D" (Some "boom") demo eq_refl)
    as (_ & _ & H & _).
  destruct (FailJob_panics_iff_nil_or_unknown "A" None demo eq_refl)
    as (_ & H' & _).
  split; [apply H; [discriminate|reflexivity]|apply H'; reflexivity].
Defined.

(** ** What a run keeps *)

Lemma run_no_deadlock ops s :
  mutex s = false -> (run ops s).1 <> Deadlock /\ mutex (run ops s).2 = false.
Proof.
  revert s. induction ops as [|o ops IH]; intros s Hm; [by split|].
  rewrite run_cons. destruct (exec_spec o s Hm) as (_ & Hm1 & Hd).
  destruct (exec o s) as [[a|r|] s1]; simpl in *; [by apply IH|by split|done].
Qed.

(** X3. No operation removes a job: a key of the registry stays through
    every run, and a key found after a run was there before or was started
    on the way. *)
Theorem registry_only_grows ops s key :
  mutex s = false ->
  (is_Some (jobs s !! key) -> is_Some (jobs (run ops s).2 !! key))
  /\ (is_Some (jobs (run ops s).2 !! key) ->
      is_Some (jobs s !! key) \/ started ops key).
Proof.
  intros Hm. split.
  - intros Hk.
    apply (run_preserves (fun s0 => mutex s0 = false /\ is_Some (jobs s0 !! key)));
      [|by split].
    intros o s0 _ [Hm0 Hk0]. destruct (exec_spec o s0 Hm0) as (Hj & Hm1 & _).
    split; [exact Hm1|]. rewrite Hj. apply jobs_after_is_Some. by left.
  - revert s Hm. induction ops as [|o ops IH]; intros s Hm Hk; [by left|].
    rewrite run_cons in Hk. destruct (exec_spec o s Hm) as (Hj & Hm1 & _).
    assert (is_Some (jobs (exec o s).2 !! key) ->
            is_Some (jobs s !! key) \/ started (o :: ops) key) as Hstep.
    { rewrite Hj, jobs_after_is_Some. intros [?|[image ->]]; [by left|].
      right. exists image. by left. }
    destruct (exec o s) as [[a|r|] s1]; simpl in *; [|by apply Hstep..].
    destruct (IH s1 Hm1 Hk) as [Hk1|[image Hin]]; [by apply Hstep|].
    right. exists image. by right.
Qed.

Lemma registry_only_grows_witness :
  mutex demo = false
  /\ (is_Some (jobs demo !! "A") ->
      is_Some (jobs (run [OpSucceedJob "A"; OpProcessLog "Z" "x"; OpStartJob "E" "img"]
                         demo).2 !! "A")).
Proof.
  split; [reflexivity|].
  apply (registry_only_grows _ demo "A" eq_refl).
Defined.

Lemma jobs_after_status_ok o m :
  (forall k j, m !! k = Some j -> status_ok j) ->
  forall k j, jobs_after o m !! k = Some j -> status_ok j.
Proof.
  intros Hok.
  assert (forall k0 j0, status_ok j0 ->
            forall k j, <[k0 := j0]> m !! k = Some j -> status_ok j) as Hupd.
  { intros k0 j0 H0 k j. destruct (decide (k0 = k)) as [->|Hne].
    - rewrite lookup_insert_eq. by intros [= <-].
    - rewrite lookup_insert_ne by done. apply Hok. }
  unfold status_ok in *.
  destruct o as [k0 img|k0 [err|]|k0|k0|k0 line|f|order|order co|order co|]; simpl;
    try exact Hok.
  - apply Hupd. by left.
  - destruct (m !! k0) eqn:E; [|exact Hok]. apply Hupd. simpl. auto.
  - destruct (m !! k0) eqn:E; [|exact Hok]. apply Hupd. simpl. auto.
  - destruct (m !! k0) eqn:E; [|exact Hok]. apply Hupd. simpl. by apply (Hok k0).
  - destruct (m !! k0) eqn:E; [|exact Hok]. destruct (decide _); [|exact Hok].
    apply Hupd. simpl. by apply (Hok k0).
Qed.

(** X4. In every state a run of operations reaches from a new dashboard,
    however the run ends: the run has not blocked on the mutex, the mutex is
    free, every job is stored under its own [service], and the status of
    every job is "", "succeeded" or "failed". *)
Theorem reachable_invariant ops scr :
  (run ops (NewInteractiveInterface scr)).1 <> Deadlock
  /\ mutex (run ops (NewInteractiveInterface scr)).2 = false
  /\ registry_ok (jobs (run ops (NewInteractiveInterface scr)).2)
  /\ (forall k j, jobs (run ops (NewInteractiveInterface scr)).2 !! k = Some j ->
                  status_ok j).
Proof.
  destruct (run_no_deadlock ops (NewInteractiveInterface scr) eq_refl) as [Hd Hm].
  split; [exact Hd|]. split; [exact Hm|].
  apply (run_preserves
           (fun s => mutex s = false /\ registry_ok (jobs s)
                     /\ forall k j, jobs s !! k = Some j -> status_ok j)).
  - intros o s0 _ (Hm0 & Hok & Hst). destruct (exec_spec o s0 Hm0) as (Hj & Hm1 & _).
    split; [exact Hm1|]. rewrite Hj. split.
    + by apply jobs_after_registry_ok.
    + by apply jobs_after_status_ok.
  - split; [reflexivity|]. split; intros k j; simpl; by rewrite lookup_empty.
Qed.

Lemma exec_cancelled o s :
  mutex s = false ->
  cancelled (exec o s).2 = match o with OpCancelKey => true | _ => cancelled s end.
Proof.
  intros Hm. destruct o as [k img|k [err|]|k|k|k line|f|order|order co|order co|]; simpl.
  - rewrite StartJob_run by assumption. by destruct s.
  - destruct (jobs s !! k) as [job|] eqn:E.
    + rewrite (FailJob_known _ _ _ job) by assumption. by destruct s.
    + by rewrite FailJob_unknown.
  - reflexivity.
  - rewrite SucceedJob_run by assumption. by destruct (jobs s !! k), s.
  - rewrite SetPushing_run by assumption. by destruct (jobs s !! k), s.
  - destruct (jobs s !! k) as [job|] eqn:E.
    + rewrite (ProcessLog_known _ _ _ job) by assumption.
      by destruct (decide _), s.
    + by rewrite ProcessLog_unknown.
  - by destruct s.
  - rewrite Close_run by assumption. simpl.
    by destruct (close_state_fields order s) as (_ & _ & ? & _).
  - unfold redraw_tick, bind, get. destruct (running s); [|done].
    by destruct (redrawScreen_fields order co s Hm) as (_ & _ & ? & _).
  - unfold on_resize, bind.
    destruct (redrawScreen_fields order co s Hm) as (_ & _ & Hc & _).
    destruct (redrawScreen order co s) as [[a|r|] s1]; simpl in *; try done.
    destruct (backend_only_backend CallSync s1) as (Ho & _).
    apply only_screen_fields in Ho. destruct Ho as (_ & _ & Hc' & _).
    unfold Sync. congruence.
  - by destruct s.
Qed.

(** X6. [cancelled] is set once and for all: a run never clears it, and
    when it is set after a run it was set before or the run holds the key
    event that sets it. No call of the life cycle, no pass and no [Close]
    writes it. *)
Theorem cancelled_write_once ops s :
  mutex s = false ->
  (cancelled s = true -> cancelled (run ops s).2 = true)
  /\ (cancelled (run ops s).2 = true -> cancelled s = true \/ OpCancelKey ∈ ops).
Proof.
  intros Hm. split.
  - intros Hc.
    apply (run_preserves (fun s0 => mutex s0 = false /\ cancelled s0 = true)); [|by split].
    intros o s0 _ [Hm0 Hc0]. destruct (exec_spec o s0 Hm0) as (_ & Hm1 & _).
    split; [exact Hm1|]. rewrite exec_cancelled by assumption. by destruct o.
  - revert s Hm. induction ops as [|o ops IH]; intros s Hm Hc; [by left|].
    rewrite run_cons in Hc. destruct (exec_spec o s Hm) as (_ & Hm1 & _).
    assert (cancelled (exec o s).2 = true ->
            cancelled s = true \/ OpCancelKey ∈ o :: ops) as Hstep.
    { rewrite exec_cancelled by assumption.
      destruct o; try (by left). intros _. right. by left. }
    destruct (exec o s) as [[a|r|] s1]; simpl in *; [|by apply Hstep..].
    destruct (IH s1 Hm1 Hc) as [Hc1|Hin]; [by apply Hstep|]. right. by right.
Qed.

Lemma cancelled_write_once_witness :
  mutex demo = false
  /\ (cancelled (run [OpCancelKey; OpStartJob "E" "img"; OpClose demo_order] demo).2 = true ->
      cancelled demo = true
      \/ OpCancelKey ∈ [OpCancelKey; OpStartJob "E" "img"; OpClose demo_order]).
Proof.
  split; [reflexivity|].
  apply (cancelled_write_once _ demo eq_refl).
Defined.

(** ** Runs that complete *)

Lemma exec_ok o s :
  mutex s = false ->
  scr_fault (screen s) = None ->
  ~ fails_without_error o ->
  (forall k, needs_key o = Some k -> is_Some (jobs s !! k)) ->
  (exec o s).1 = Ok tt /\ scr_fault (screen (exec o s).2) = None.
Proof.
  intros Hm Hf He Hk.
  destruct o as [k img|k [err|]|k|k|k line|f|order|order co|order co|]; simpl.
  - rewrite StartJob_run by assumption. by destruct s.
  - destruct (Hk k eq_refl) as [job Hjob].
    rewrite (FailJob_known _ _ _ job) by assumption. by destruct s.
  - by destruct He.
  - rewrite SucceedJob_run by assumption. by destruct (jobs s !! k), s.
  - rewrite SetPushing_run by assumption. by destruct (jobs s !! k), s.
  - destruct (Hk k eq_refl) as [job Hjob].
    rewrite (ProcessLog_known _ _ _ job) by assumption. by destruct (decide _), s.
  - by destruct s.
  - rewrite Close_run by assumption. simpl.
    destruct (close_state_fields order s) as (_ & _ & _ & _ & _ & Hf'). split; congruence.
  - unfold redraw_tick, bind, get. destruct (running s); [|by split].
    by rewrite redrawScreen_ok.
  - unfold on_resize, bind. rewrite redrawScreen_ok by assumption.
    unfold Sync. by rewrite emits_backend.
  - by destruct s.
Qed.

Lemma exec_needs_key o s k :
  mutex s = false ->
  needs_key o = Some k ->
  (exec o s).1 = Ok tt ->
  is_Some (jobs s !! k).
Proof.
  intros Hm Hn Hok. destruct (jobs s !! k) as [job|] eqn:E; [eauto|].
  destruct o as [| ? [err|] | | | | | | | |];
    simpl in Hn; try discriminate; injection Hn as ->; simpl in Hok.
  - by rewrite FailJob_unknown in Hok.
  - by rewrite ProcessLog_unknown in Hok.
Qed.

Lemma exec_has_error o s :
  (exec o s).1 = Ok tt -> ~ fails_without_error o.
Proof.
  intros Hok He.
  destruct o as [| ? [err|] | | | | | | | |]; try done; simpl in Hok; discriminate Hok.
Qed.

Lemma run_ok ops s :
  mutex s = false ->
  scr_fault (screen s) = None ->
  (forall o, o ∈ ops -> ~ fails_without_error o) ->
  (forall i o k, ops !! i = Some o -> needs_key o = Some k ->
     is_Some (jobs s !! k)
     \/ exists j image, (j < i)%nat /\ ops !! j = Some (OpStartJob k image)) ->
  (run ops s).1 = Ok tt.
Proof.
  revert s. induction ops as [|o ops IH]; intros s Hm Hf He Hwf; [reflexivity|].
  rewrite run_cons.
  destruct (exec_ok o s Hm Hf) as [Hok Hf1].
  { apply He. by left. }
  { intros k Hn. destruct (Hwf 0%nat o k eq_refl Hn) as [?|(j & _ & Hj & _)]; [done|lia]. }
  destruct (exec_spec o s Hm) as (Hj & Hm1 & _).
  destruct (exec o s) as [[[]|r|] s1]; simpl in *; try discriminate.
  apply IH; [done..| |].
  { intros o' Hin. apply He. by right. }
  intros i o' k Hi Hn. rewrite Hj, jobs_after_is_Some.
  destruct (Hwf (S i) o' k Hi Hn) as [?|(j & image & Hlt & Hjs)]; [by left; left|].
  destruct j as [|j]; simpl in Hjs.
  - injection Hjs as ->. left. right. eauto.
  - right. exists j, image. split; [lia|done].
Qed.

Lemma run_ok_inv ops s :
  mutex s = false ->
  (run ops s).1 = Ok tt ->
  forall i o k, ops !! i = Some o -> needs_key o = Some k ->
    is_Some (jobs s !! k)
    \/ exists j image, (j < i)%nat /\ ops !! j = Some (OpStartJob k image).
Proof.
  revert s. induction ops as [|o ops IH]; intros s Hm Hok i o' k Hi Hn; [done|].
  rewrite run_cons in Hok.
  destruct (exec_spec o s Hm) as (Hj & Hm1 & _).
  pose proof (exec_needs_key o s) as Hneed.
  destruct (exec o s) as [[[]|r|] s1]; simpl in *; try discriminate.
  destruct i as [|i]; simpl in Hi.
  - injection Hi as ->. left. by apply Hneed.
  - destruct (IH s1 Hm1 Hok i o' k Hi Hn) as [Hk|(j & image & Hlt & Hjs)].
    + rewrite Hj in Hk. apply jobs_after_is_Some in Hk as [?|[image ->]]; [by left|].
      right. exists 0%nat, image. split; [lia|done].
    + right. exists (S j), image. split; [lia|done].
Qed.

Lemma run_ok_errors ops s :
  (run ops s).1 = Ok tt -> forall o, o ∈ ops -> ~ fails_without_error o.
Proof.
  revert s. induction ops as [|o ops IH]; intros s Hok o' Hin.
  - by apply elem_of_nil in Hin.
  - rewrite run_cons in Hok.
    pose proof (exec_has_error o s) as He.
    destruct (exec o s) as [[[]|r|] s1]; simpl in *; try discriminate.
    apply elem_of_cons in Hin as [->|Hin]; [by apply He|by apply (IH s1)].
Qed.

(** X5. On a backend that does not fail, a run from a new dashboard
    completes exactly when every [FailJob] in it is given an error that is
    not nil and every [FailJob] and every [ProcessLog] in it comes after a
    [StartJob] of its key: nothing else in the dashboard panics, and a
    failure reported without an error, or a log line or a failure reported
    for a job that was not started, does. *)
Theorem run_completes_iff ops scr :
  scr_fault scr = None ->
  ((run ops (NewInteractiveInterface scr)).1 = Ok tt
   <-> (forall o, o ∈ ops -> ~ fails_without_error o) /\ logs_follow_starts ops).
Proof.
  intros Hf. split.
  - intros Hok. split; [by apply (run_ok_errors ops (NewInteractiveInterface scr))|].
    intros i o k Hi Hn.
    destruct (run_ok_inv ops (NewInteractiveInterface scr) eq_refl Hok i o k Hi Hn)
      as [[j Hk]|H]; [|exact H].
    simpl in Hk. by rewrite lookup_empty in Hk.
  - intros [He Hwf]. apply run_ok; [reflexivity|exact Hf|exact He|].
    intros i o k Hi Hn. right. by apply (Hwf i o k).
Qed.

Lemma run_completes_iff_witness :
  scr_fault (plain_screen 80 24) = None
  /\ (run [OpStartJob "A" "img-a"; OpProcessLog "A" "Step 1"; OpFailJob "A" (Some "boom");
           OpSucceedJob "B"; OpClose []] (NewInteractiveInterface (plain_screen 80 24))).1
     = Ok tt
  /\ (run [OpStartJob "A" "img-a"; OpFailJob "A" None]
          (NewInteractiveInterface (plain_screen 80 24))).1 <> Ok tt.
Proof.
  split; [reflexivity|]. split.
  - apply (run_completes_iff _ (plain_screen 80 24) eq_refl). split.
    + intros o Hin. repeat (apply elem_of_cons in Hin as [->|Hin]; [exact id|]).
      by apply elem_of_nil in Hin.
    + intros i o k Hi Hn.
      destruct i as [|[|[|[|[|i]]]]]; simpl in Hi; try discriminate;
        injection Hi as <-; simpl in Hn; try discriminate; injection Hn as <-;
        exists 0%nat, "img-a"; (split; [lia|reflexivity]).
  - intros Hok.
    apply (run_completes_iff _ (plain_screen 80 24) eq_refl) in Hok as [He _].
    apply (He (OpFailJob "A" None)); [|exact I]. right. by left.
Defined.

(** ** Passes, Close and the redraw loop *)

Lemma close_state_more order s :
  stdout (close_state order s)
  = (if cancelled s then stdout s
     else stdout s ++ [if decide ((filter not_succeeded order).*1 = [])
                       then success_summary ((fun e => image e.2) <$> order)
                       else failure_summary (filter not_succeeded order).*1])
  /\ cancelListeners (close_state order s) = cancelListeners s
  /\ screenStyle (close_state order s) = screenStyle s.
Proof.
  unfold close_state. rewrite close_loop_eq.
  destruct (cancelled s); [by destruct s|].
  rewrite summary_choice. by destruct s.
Qed.

(** X7. A pass never touches the registry, the cancellation flag, the
    listeners or the mutex. A pass that returns normally has changed nothing
    but the state of the backend. A pass the backend interrupts goes through
    [Close]: it stops the redraw loop and writes on the standard output what a
    call of [Close] in the state before the pass would have written, the
    summary of the build included. *)
Theorem redrawScreen_frame order close_order s :
  mutex s = false ->
  jobs (redrawScreen order close_order s).2 = jobs s
  /\ cancelled (redrawScreen order close_order s).2 = cancelled s
  /\ cancelListeners (redrawScreen order close_order s).2 = cancelListeners s
  /\ mutex (redrawScreen order close_order s).2 = false
  /\ match (redrawScreen order close_order s).1 with
     | Ok _ => only_screen s (redrawScreen order close_order s).2
     | Panic _ =>
       running (redrawScreen order close_order s).2 = false
       /\ stdout (redrawScreen order close_order s).2 = stdout (Close close_order s).2
     | Deadlock => False
     end.
Proof.
  intros Hm. rewrite redrawScreen_run by assumption.
  destruct (redraw_unprotected_backend order s Hm) as (Ho & _ & Hr).
  pose proof Ho as Ho'. apply only_screen_fields in Ho'.
  destruct Ho' as (Hj & Hmx & Hc & _ & Hout & _ & Hl).
  destruct (redraw_unprotected order s) as [[a|r|] s1]; simpl in *; [| |done].
  - split; [congruence|]. split; [congruence|]. split; [congruence|].
    split; [congruence|exact Ho].
  - destruct (close_state_fields close_order s1) as (Hj' & Hm' & Hc' & Hrun & _).
    destruct (close_state_more close_order s1) as (Hout' & Hl' & _).
    destruct (close_state_more close_order s) as (Hout'' & _).
    rewrite Close_run by assumption. simpl.
    repeat split; try congruence.
    rewrite Hout', Hout'', Hc, Hout. reflexivity.
Qed.

Lemma redrawScreen_frame_witness :
  mutex faulty_demo = false
  /\ jobs (redrawScreen demo_order demo_order faulty_demo).2 = jobs faulty_demo
  /\ stdout (redrawScreen demo_order demo_order faulty_demo).2
     = ["Failed to build the following jobs: C, A
See the logs folder for details.
"].
Proof.
  split; [reflexivity|].
  destruct (redrawScreen_frame demo_order demo_order faulty_demo eq_refl)
    as (Hj & _ & _ & _ & H).
  split; [exact Hj|].
  destruct ((redrawScreen demo_order demo_order faulty_demo).1) eqn:E;
    [vm_compute in E; discriminate E| |destruct H].
  destruct H as [_ ->]. reflexivity.
Defined.

(** X8. [Close] has no guard against a second call: two calls in a row
    finalize the terminal twice and, unless [cancelled] is set, print two
    summaries. *)
Theorem Close_twice order1 order2 s :
  mutex s = false ->
  (Close order1 ;; Close order2) s = (Ok tt, close_state order2 (close_state order1 s))
  /\ scr_calls (screen ((Close order1 ;; Close order2) s).2)
     = scr_calls (screen s) ++ [CallFini; CallFini]
  /\ (if cancelled s
      then stdout ((Close order1 ;; Close order2) s).2 = stdout s
      else exists text1 text2,
          stdout (Close order1 s).2 = stdout s ++ [text1]
          /\ stdout ((Close order1 ;; Close order2) s).2 = stdout s ++ [text1; text2]).
Proof.
  intros Hm.
  destruct (close_state_fields order1 s) as (_ & Hm1 & Hc1 & _ & Hcalls1 & _).
  destruct (close_state_fields order2 (close_state order1 s)) as (_ & _ & _ & _ & Hcalls2 & _).
  destruct (close_state_more order1 s) as (Hout1 & _).
  destruct (close_state_more order2 (close_state order1 s)) as (Hout2 & _).
  assert ((Close order1 ;; Close order2) s
          = (Ok tt, close_state order2 (close_state order1 s))) as Hrun.
  { unfold bind. rewrite Close_run by assumption. rewrite Close_run by congruence. done. }
  rewrite Hrun, Close_run by assumption. simpl.
  split; [done|]. split.
  - rewrite Hcalls2, Hcalls1. by rewrite <- app_assoc.
  - rewrite Hout2, Hc1, Hout1. destruct (cancelled s); [done|].
    eexists _, _. split; [reflexivity|]. by rewrite <- app_assoc.
Qed.

Lemma Close_twice_witness :
  mutex two_building = false
  /\ stdout ((Close (ab two_building) ;; Close (ba two_building)) two_building).2
     = ["Failed to build the following jobs: a, b
See the logs folder for details.
"; "Failed to build the following jobs: b, a
See the logs folder for details.
"].
Proof.
  split; [reflexivity|].
  destruct (Close_twice (ab two_building) (ba two_building) two_building eq_refl)
    as (H & _).
  rewrite H. reflexivity.
Defined.





(** ** The frame does not depend on the order of the map *)

Lemma sorted_slice_unique (P : interactiveInterfaceJob -> Prop) `{!forall j, Decision (P j)}
    order1 order2 m :
  enumerates order1 m -> enumerates order2 m -> registry_ok m ->
  sortJobs (filter P order1.*2) = sortJobs (filter P order2.*2).
Proof.
  intros He1 He2 Hok.
  destruct (sorted_slice P order1 m He1 Hok) as [Hs1 _].
  destruct (sorted_slice P order2 m He2 Hok) as [Hs2 _].
  apply (StronglySorted_unique_strong job_lt); [|done|done|].
  - intros x1 x2 _ _ H12 H21. destruct (key_lt_irrefl (service x1)).
    by apply (key_lt_trans _ (service x2)).
  - rewrite !sortJobs_Permutation. unfold enumerates in *. by rewrite He1, He2.
Qed.

(** X10. Unlike the summary of [Close], a pass does not depend on the order
    in which the runtime ranges over the map: when every job is stored under
    its own name, two passes from one state that meet the entries in
    different orders make the same calls and end in the same state, on every
    backend. The sort by [service] is what makes it so. *)
Theorem redrawScreen_order_independent order1 order2 close_order s :
  enumerates order1 (jobs s) ->
  enumerates order2 (jobs s) ->
  registry_ok (jobs s) ->
  redrawScreen order1 close_order s = redrawScreen order2 close_order s.
Proof.
  intros He1 He2 Hok.
  assert (forall width height s0,
             redraw_locked order1 width height s0 = redraw_locked order2 width height s0)
    as Hlocked.
  { intros width height s0. unfold redraw_locked. rewrite !classify_eq.
    by rewrite (sorted_slice_unique is_succeeded order1 order2 (jobs s)),
               (sorted_slice_unique is_failed order1 order2 (jobs s)),
               (sorted_slice_unique is_curr order1 order2 (jobs s)). }
  assert (redraw_unprotected order1 s = redraw_unprotected order2 s) as Hun.
  { unfold redraw_unprotected, bind.
    destruct (Size s) as [[size|r|] s1]; [|done..].
    destruct (Lock s1) as [[[]|r|] s2]; [|done..].
    unfold defer. by rewrite Hlocked. }
  unfold redrawScreen, defer_recover. by rewrite Hun.
Qed.

Lemma enumerates_rev_demo : enumerates (rev demo_order) (jobs demo).
Proof. unfold enumerates. rewrite <- enumerates_demo. symmetry. apply Permutation_rev. Qed.

Lemma redrawScreen_order_independent_witness :
  enumerates demo_order (jobs demo)
  /\ enumerates (rev demo_order) (jobs demo)
  /\ registry_ok (jobs demo)
  /\ redrawScreen demo_order demo_order demo = redrawScreen (rev demo_order) demo_order demo.
Proof.
  split; [apply enumerates_demo|]. split; [apply enumerates_rev_demo|].
  split; [apply registry_ok_demo|].
  exact (redrawScreen_order_independent demo_order (rev demo_order) demo_order demo
           enumerates_demo enumerates_rev_demo registry_ok_demo).
Defined.

(** ** Rows and columns *)

Lemma cells_eq width y s style :
  cells width y s style
  = (fun i => CallSetContent (Z.of_nat i) y (default 32 (runes s !! i)) [] style)
      <$> seq 0 (Z.to_nat width).
Proof.
  unfold cells. unfold rune. generalize (runes s). unfold rune. intros r.
  apply list_eq. intros i.
  rewrite (list_lookup_fmap _ (seq 0 (Z.to_nat width))).
  destruct (decide (i < Z.to_nat width)%nat) as [Hw|Hw].
  - rewrite lookup_seq_lt by done. simpl.
    destruct (decide (i < length r)%nat) as [Hr|Hr].
    + rewrite lookup_app_l
        by (rewrite length_fmap, length_imap, length_take; lia).
      rewrite list_lookup_fmap, list_lookup_imap, lookup_take_lt by done.
      destruct (lookup_lt_is_Some_2 r i Hr) as [c Hc]. by rewrite Hc.
    + rewrite lookup_app_r
        by (rewrite length_fmap, length_imap, length_take; lia).
      rewrite length_fmap, length_imap, length_take.
      rewrite list_lookup_fmap, lookup_seqZ_lt by lia. simpl.
      rewrite (lookup_ge_None_2 r i) by lia. simpl. do 2 f_equal. lia.
  - rewrite lookup_seq_ge by lia. simpl.
    apply lookup_ge_None_2.
    rewrite length_app, !length_fmap, length_imap, length_take, length_seqZ. lia.
Qed.

(** X11. On a backend that does not fail, [displayAndTruncateString] writes
    the whole row and nothing else: one cell for each column from 0 to
    [width - 1], in this order, all on row [y] in the given style; column [i]
    gets the [i]-th rune of the text, or a blank when the text has fewer
    runes. Runes beyond the width are not written, and nothing at all is
    written when the width is not positive. *)
Theorem displayAndTruncateString_row width y text style s :
  scr_fault (screen s) = None ->
  displayAndTruncateString width y text style s
  = (Ok tt,
     add_calls ((fun i => CallSetContent (Z.of_nat i) y (default 32 (runes text !! i)) [] style)
                  <$> seq 0 (Z.to_nat width)) s).
Proof.
  intros Hf. rewrite <- cells_eq. by apply emits_displayAndTruncateString.
Qed.

Lemma displayAndTruncateString_row_witness :
  scr_fault (screen fresh) = None
  /\ scr_calls (screen (displayAndTruncateString 3 5 "ab" StyleDefault fresh).2)
     = [CallSetContent 0 5 97 [] StyleDefault; CallSetContent 1 5 98 [] StyleDefault;
        CallSetContent 2 5 32 [] StyleDefault]
  /\ scr_calls (screen (displayAndTruncateString 1 5 "ab" StyleDefault fresh).2)
     = [CallSetContent 0 5 97 [] StyleDefault].
Proof.
  split; [reflexivity|].
  rewrite !(displayAndTruncateString_row _ _ _ _ fresh eq_refl). split; reflexivity.
Defined.

Lemma stacked_app top bs1 bs2 bottom :
  stacked top (bs1 ++ bs2) bottom
  <-> exists mid, stacked top bs1 mid /\ stacked mid bs2 bottom.
Proof.
  revert top. induction bs1 as [|b bs1 IH]; intros top; simpl.
  - split; [intros H; by exists top|]. by intros (mid & -> & H).
  - rewrite IH. split.
    + intros (Hb & mid & H1 & H2). eauto.
    + intros (mid & (Hb & H1) & H2). eauto.
Qed.

Lemma render_jobs_stacked header height lpj js cur rem :
  stacked cur (render_jobs header height lpj js cur rem).1.1
          (render_jobs header height lpj js cur rem).1.2.
Proof.
  revert cur rem. induction js as [|job rest IH]; intros cur rem; simpl; [done|].
  destruct (decide (cur + 1 >= height - 2)); [done|].
  destruct (decide (rem > 0)).
  - specialize (IH (cur + 1 + Z.of_nat (length (Peek (lpj - 1 + 1) (lastLogLines job))))
                   (rem - 1)).
    destruct (render_jobs header height lpj rest _ _) as [[bs c] r]. by split.
  - specialize (IH (cur + 1 + Z.of_nat (length (Peek (lpj - 1) (lastLogLines job)))) rem).
    destruct (render_jobs header height lpj rest _ _) as [[bs c] r]. by split.
Qed.

Lemma stacked_rows top bs bottom :
  stacked top bs bottom -> 0 <= top ->
  Forall (fun b => 0 <= blk_row b) bs /\ top <= bottom.
Proof.
  revert top. induction bs as [|b bs IH]; intros top; simpl.
  - intros -> ?. split; [constructor|lia].
  - intros [Hb Hs] Htop.
    assert (0 <= block_end b) as He by (unfold block_end, len; lia).
    destruct (IH _ Hs He) as [Hall Hle].
    split; [constructor; [lia|done]|]. unfold block_end, len in *. lia.
Qed.

(** With room for all that is left to draw, every block ends above the
    summary row. *)
Lemma render_jobs_fits header height lpj js cur rem k :
  1 <= lpj -> 0 <= k -> rem >= 0 ->
  cur + (len js + k) * lpj + rem <= height - 1 ->
  let '(blocks, cur', rem') := render_jobs header height lpj js cur rem in
  Forall (fun b => block_end b <= height - 1) blocks
  /\ rem' >= 0 /\ cur' + k * lpj + rem' <= height - 1.
Proof.
  intros Hlpj Hk. revert cur rem.
  induction js as [|job rest IH]; intros cur rem Hrem Hroom; simpl.
  { unfold len in Hroom. simpl in Hroom. split; [constructor|]. split; lia. }
  assert (len (job :: rest) = len rest + 1) as Hlen by (unfold len; simpl length; lia).
  rewrite Hlen in Hroom.
  destruct (decide (cur + 1 >= height - 2)).
  { split; [constructor|]. split; [lia|]. unfold len in *. nia. }
  destruct (decide (rem > 0)).
  - pose proof (Peek_length (lpj - 1 + 1) (lastLogLines job)) as Hpk.
    specialize (IH (cur + 1 + Z.of_nat (length (Peek (lpj - 1 + 1) (lastLogLines job))))
                   (rem - 1) ltac:(lia) ltac:(unfold len in *; nia)).
    destruct (render_jobs header height lpj rest _ _) as [[bs c] r].
    destruct IH as (Hall & Hr & Hc). split; [|by split].
    constructor; [|done]. unfold block_end, len in *. simpl. nia.
  - pose proof (Peek_length (lpj - 1) (lastLogLines job)) as Hpk.
    specialize (IH (cur + 1 + Z.of_nat (length (Peek (lpj - 1) (lastLogLines job))))
                   rem ltac:(lia) ltac:(unfold len in *; nia)).
    destruct (render_jobs header height lpj rest _ _) as [[bs c] r].
    destruct IH as (Hall & Hr & Hc). split; [|by split].
    constructor; [|done]. unfold block_end, len in *. simpl. nia.
Qed.

(** With the least two rows per job and no remainder, every block ends above
    the summary row as well: its header is drawn only with two rows to
    spare. *)
Lemma render_jobs_fits_min header height js cur rem :
  rem <= 0 ->
  let '(blocks, cur', rem') := render_jobs header height 2 js cur rem in
  Forall (fun b => block_end b <= height - 1) blocks /\ rem' <= 0.
Proof.
  revert cur. induction js as [|job rest IH]; intros cur Hrem; simpl.
  { by split. }
  destruct (decide (cur + 1 >= height - 2)); [by split|].
  destruct (decide (rem > 0)); [lia|].
  pose proof (Peek_length (2 - 1) (lastLogLines job)) as Hpk.
  specialize (IH (cur + 1 + Z.of_nat (length (Peek (2 - 1) (lastLogLines job)))) Hrem).
  destruct (render_jobs header height 2 rest _ _) as [[bs c] r].
  destruct IH as (Hall & Hr). split; [|done].
  constructor; [|done]. unfold block_end, len. simpl. lia.
Qed.

Lemma linesPerJob_min height n : 2 <= linesPerJob height n.
Proof. unfold linesPerJob. case_decide; lia. Qed.

Lemma negative_remainder height n :
  0 <= n -> numRemainderLines height n < 0 -> linesPerJob height n = 2.
Proof.
  unfold numRemainderLines. intros Hn0 Hneg.
  destruct (decide (0 < n)) as [Hn|Hn].
  - rewrite linesPerJob_floor in * by assumption.
    pose proof (Z.div_mod (height - 1) n ltac:(lia)) as Hdm.
    pose proof (Z.mod_pos_bound (height - 1) n Hn) as Hmod.
    destruct (Z.max_spec 2 ((height - 1) / n)) as [[Hlt Hmax]|[Hle Hmax]];
      rewrite Hmax in *; nia.
  - assert (n = 0) as -> by lia. unfold linesPerJob.
    destruct (height - 1); reflexivity.
Qed.

Lemma elem_of_concat {A} (x : A) (ls : list (list A)) :
  x ∈ concat ls <-> exists l, x ∈ l /\ l ∈ ls.
Proof.
  rewrite list_elem_of_In, in_concat. split.
  - intros (l & Hl & Hx). exists l. by rewrite !list_elem_of_In.
  - intros (l & Hx & Hl). exists l. by rewrite <- !list_elem_of_In.
Qed.

Lemma cells_elem width y s style c :
  c ∈ cells width y s style ->
  exists x r, c = CallSetContent x y r [] style /\ 0 <= x < width.
Proof.
  rewrite cells_eq. intros Hc. apply list_elem_of_fmap in Hc as (i & -> & Hi).
  apply elem_of_seq in Hi. eexists _, _. split; [reflexivity|]. lia.
Qed.

Lemma block_calls_elem width hs ls b c :
  c ∈ block_calls width hs ls b ->
  exists x y r style,
    c = CallSetContent x y r [] style /\ 0 <= x < width /\ blk_row b <= y < block_end b.
Proof.
  unfold block_calls, block_end, len. intros Hc. apply elem_of_app in Hc as [Hc|Hc].
  - apply cells_elem in Hc as (x & r & -> & Hx).
    eexists _, _, _, _. split; [reflexivity|]. split; [done|]. lia.
  - apply elem_of_concat in Hc as (cs & Hc & Hcs).
    apply list_elem_of_fmap in Hcs as ([y line] & -> & Hin).
    apply list_elem_of_lookup in Hin as [i Hi].
    rewrite list_lookup_imap in Hi.
    destruct (blk_lines b !! i) as [l|] eqn:E; [|done]. injection Hi as <- <-.
    apply lookup_lt_Some in E.
    apply cells_elem in Hc as (x & r & -> & Hx). simpl.
    eexists _, _, _, _. split; [reflexivity|]. split; [done|]. lia.
Qed.

(** X12. The blocks of a frame follow one another from row 0 downwards
    without a gap, and each of them, log lines included, ends above the last
    row, whatever the height of the terminal and the number of jobs: every
    cell of a job is written in a column of the terminal and on a row between
    0 and [height - 2], so the jobs never spill over the summary row nor
    below the screen; jobs that do not fit are left out. *)
Theorem layout_rows order height :
  let blocks := (layout order height).1 ++ (layout order height).2 in
  (exists bottom, stacked 0 blocks bottom)
  /\ Forall (fun b => 0 <= blk_row b /\ block_end b <= height - 1) blocks
  /\ (forall width hs ls c,
        c ∈ concat (block_calls width hs ls <$> blocks) ->
        exists x y r style,
          c = CallSetContent x y r [] style /\ 0 <= x < width /\ 0 <= y <= height - 2).
Proof.
  intros blocks.
  assert ((exists bottom, stacked 0 blocks bottom)
          /\ Forall (fun b => block_end b <= height - 1) blocks) as [[bottom Hst] Hfit].
  { subst blocks. unfold layout. destruct (classify order) as [[su fa] cu].
    set (F := sortJobs fa). set (C := sortJobs cu).
    set (n := len F + len C).
    assert (0 <= len F /\ 0 <= len C) as [HF HC] by (unfold len; lia).
    pose proof (linesPerJob_min height n) as Hmin.
    pose proof (negative_remainder height n ltac:(lia)) as Hneg.
    assert (numRemainderLines height n = height - 1 - linesPerJob height n * n) as Hrem
        by reflexivity.
    set (lpj := linesPerJob height n) in *.
    set (rem := numRemainderLines height n) in *.
    pose proof (render_jobs_stacked failed_header height lpj F 0 rem) as Hs1.
    pose proof (render_jobs_fits failed_header height lpj F 0 rem (len C)) as Ha1.
    pose proof (render_jobs_fits_min failed_header height F 0 rem) as Hb1.
    destruct (decide (rem >= 0)) as [Hpos|Hnegative].
    - clear Hb1. specialize (Ha1 ltac:(lia) HC Hpos ltac:(unfold n in *; nia)).
      destruct (render_jobs failed_header height lpj F 0 rem) as [[fb c1] r1].
      destruct Ha1 as (Hall1 & Hr1 & Hroom1).
      pose proof (render_jobs_stacked curr_header height lpj C c1 r1) as Hs2.
      pose proof (render_jobs_fits curr_header height lpj C c1 r1 0
                    ltac:(lia) ltac:(lia) Hr1 ltac:(lia)) as Ha2.
      destruct (render_jobs curr_header height lpj C c1 r1) as [[cb c2] r2].
      destruct Ha2 as (Hall2 & _). simpl in *. split.
      + exists c2. apply stacked_app. eauto.
      + by apply Forall_app.
    - clear Ha1. rewrite (Hneg ltac:(lia)) in *. specialize (Hb1 ltac:(lia)).
      destruct (render_jobs failed_header height 2 F 0 rem) as [[fb c1] r1].
      destruct Hb1 as (Hall1 & Hr1).
      pose proof (render_jobs_stacked curr_header height 2 C c1 r1) as Hs2.
      pose proof (render_jobs_fits_min curr_header height C c1 r1 Hr1) as Hb2.
      destruct (render_jobs curr_header height 2 C c1 r1) as [[cb c2] r2].
      destruct Hb2 as (Hall2 & _). simpl in *. split.
      + exists c2. apply stacked_app. eauto.
      + by apply Forall_app. }
  destruct (stacked_rows 0 blocks bottom Hst ltac:(lia)) as [Hrows _].
  assert (Forall (fun b => 0 <= blk_row b /\ block_end b <= height - 1) blocks) as Hall.
  { rewrite Forall_forall in *. intros b Hb. split; [by apply Hrows|by apply Hfit]. }
  split; [by exists bottom|]. split; [exact Hall|].
  intros width hs ls c Hc. apply elem_of_concat in Hc as (cs & Hc & Hcs).
  apply list_elem_of_fmap in Hcs as (b & -> & Hb).
  rewrite Forall_forall in Hall. destruct (Hall b Hb) as [Hrow Hend].
  apply block_calls_elem in Hc as (x & y & r & style & -> & Hx & Hy).
  eexists _, _, _, _. split; [reflexivity|]. split; [done|]. lia.
Qed.

(** ** The event loop *)

Lemma on_resize_fields order close_order s :
  mutex s = false ->
  jobs (on_resize order close_order s).2 = jobs s
  /\ mutex (on_resize order close_order s).2 = false
  /\ cancelled (on_resize order close_order s).2 = cancelled s
  /\ cancelListeners (on_resize order close_order s).2 = cancelListeners s
  /\ (on_resize order close_order s).1 <> Deadlock.
Proof.
  intros Hm. unfold on_resize, bind. rewrite redrawScreen_run by assumption.
  destruct (redraw_unprotected_backend order s Hm) as (Ho & _ & Hr).
  apply only_screen_fields in Ho. destruct Ho as (Hj & Hmx & Hc & _ & _ & _ & Hl).
  destruct (redraw_unprotected order s) as [[a|r|] s1]; simpl in *; [| |done].
  - destruct (backend_only_backend CallSync s1) as (Ho & _ & Hr').
    apply only_screen_fields in Ho. destruct Ho as (Hj' & Hmx' & Hc' & _ & _ & _ & Hl').
    unfold Sync. repeat split; try congruence.
    intros E. by rewrite E in Hr'.
  - destruct (close_state_fields close_order s1) as (Hj' & Hm' & Hc' & _).
    destruct (close_state_more close_order s1) as (_ & Hl' & _).
    repeat split; congruence.
Qed.

Lemma event_loop_app pre rest s :
  Forall quiet_event pre ->
  event_loop (pre ++ rest) s =
  match event_loop pre s with
  | (Ok _, s1) => event_loop rest s1
  | (Panic r, s1) => (Panic r, s1)
  | (Deadlock, s1) => (Deadlock, s1)
  end.
Proof.
  intros Hq. revert s. induction Hq as [|ev pre Hev Hq IH]; intros s; [done|].
  destruct ev as [order co|key|]; simpl in *.
  - unfold bind. destruct (on_resize order co s) as [[a|r|] s1]; [apply IH|done..].
  - rewrite Hev. apply IH.
  - apply IH.
Qed.

Lemma event_loop_quiet pre s :
  Forall quiet_event pre ->
  mutex s = false ->
  jobs (event_loop pre s).2 = jobs s
  /\ mutex (event_loop pre s).2 = false
  /\ cancelled (event_loop pre s).2 = cancelled s
  /\ cancelListeners (event_loop pre s).2 = cancelListeners s
  /\ match (event_loop pre s).1 with
     | Ok called => called = []
     | Panic _ => True
     | Deadlock => False
     end.
Proof.
  intros Hq. revert s. induction Hq as [|ev pre Hev Hq IH]; intros s Hm; [done|].
  destruct ev as [order co|key|]; simpl in *.
  - unfold bind. destruct (on_resize_fields order co s Hm) as (Hj & Hm1 & Hc & Hl & Hd).
    destruct (on_resize order co s) as [[a|r|] s1]; simpl in *; [|done..].
    destruct (IH s1 Hm1) as (? & ? & ? & ? & ?). repeat split; congruence || done.
  - rewrite Hev. by apply IH.
  - by apply IH.
Qed.

(** X13. The event loop ends at the first interrupt key (Ctrl-C, Esc,
    Exit): it then calls the registered listeners, all of them, once each, in
    the order of their registration, sets [cancelled], and handles none of
    the events that follow. Before that key no listener is called and
    [cancelled] and the registry stay as they are: other keys and other
    events do nothing, a resize redraws. *)
Theorem event_loop_cancel pre key post s :
  mutex s = false ->
  Forall quiet_event pre ->
  is_cancel_key key = true ->
  event_loop (pre ++ EventKey key :: post) s =
  match (event_loop pre s).1 with
  | Ok _ => (Ok (cancelListeners s), set_cancelled true (event_loop pre s).2)
  | Panic r => (Panic r, (event_loop pre s).2)
  | Deadlock => (Deadlock, (event_loop pre s).2)
  end
  /\ jobs (event_loop pre s).2 = jobs s
  /\ cancelled (event_loop pre s).2 = cancelled s
  /\ (forall called, (event_loop pre s).1 = Ok called -> called = []).
Proof.
  intros Hm Hq Hk. rewrite event_loop_app by assumption.
  destruct (event_loop_quiet pre s Hq Hm) as (Hj & _ & Hc & Hl & Hr).
  split; [|split; [done|split; [done|]]].
  - destruct (event_loop pre s) as [[called|r|] s1]; simpl in *; [|done..].
    rewrite Hk. unfold bind, get, on_cancel_key, modify, ret. by rewrite Hl.
  - intros called E. by rewrite E in Hr.
Qed.

Lemma event_loop_cancel_witness :
  mutex demo = false
  /\ Forall quiet_event [EventKey (KeyOther 13); EventOther]
  /\ is_cancel_key KeyEsc = true
  /\ event_loop ([EventKey (KeyOther 13); EventOther]
                 ++ EventKey KeyEsc :: [EventResize demo_order demo_order])
                (AddCancelListener 7 (AddCancelListener 4 demo).2).2
     = (Ok [4%nat; 7%nat],
        set_cancelled true (AddCancelListener 7 (AddCancelListener 4 demo).2).2).
Proof.
  assert (Forall quiet_event [EventKey (KeyOther 13); EventOther]) as Hq
      by (repeat constructor).
  split; [reflexivity|]. split; [exact Hq|]. split; [reflexivity|].
  destruct (event_loop_cancel [EventKey (KeyOther 13); EventOther] KeyEsc
              [EventResize demo_order demo_order]
              (AddCancelListener 7 (AddCancelListener 4 demo).2).2
              eq_refl Hq eq_refl) as (H & _).
  rewrite H. reflexivity.
Defined.

(** * Properties of pkg/config *)

Section ConfigProperties.

Import Config.

Variable ProvisionerExists : string -> bool.
Variable GetProvisionerNames : list string.
Variable ValidateProvisionerConfig : string -> gmap string string -> option string.
Variable ReadFile : string -> string + string.
Variable Unmarshal : string -> SanicConfig + string.
Variable Base : string -> string.

Local Abbreviation check_environments :=
  (Config.check_environments ProvisionerExists GetProvisionerNames ValidateProvisionerConfig).
Local Abbreviation ReadFromPath :=
  (Config.ReadFromPath ProvisionerExists GetProvisionerNames ValidateProvisionerConfig
                       ReadFile Unmarshal).
Local Abbreviation Read :=
  (Config.Read ProvisionerExists GetProvisionerNames ValidateProvisionerConfig
               ReadFile Unmarshal).
Local Abbreviation environment_ok :=
  (Config.environment_ok ProvisionerExists ValidateProvisionerConfig).
Local Abbreviation CurrentEnvironment := (Config.CurrentEnvironment Base).

Lemma check_environments_None order :
  check_environments order = None <-> forall e, e ∈ order -> environment_ok e.2.
Proof.
  unfold Config.environment_ok. induction order as [|[name env] order IH]; simpl.
  - split; [|done]. intros _ e He. by apply elem_of_nil in He.
  - destruct (decide (ClusterProvisioner env <> "")) as [Hne|He].
    + destruct (ProvisionerExists (ClusterProvisioner env)) eqn:Hex; simpl.
      * destruct (ValidateProvisionerConfig _ _) as [err|] eqn:Hv.
        -- split; [done|]. intros H. destruct (H (name, env)) as [?|[_ ?]];
             [by left|done|simpl in *; congruence].
        -- rewrite IH. split.
           ++ intros H e Hin. apply elem_of_cons in Hin as [->|Hin]; [by right|by apply H].
           ++ intros H e Hin. apply H. by right.
      * split; [done|]. intros H. destruct (H (name, env)) as [?|[? _]];
          [by left|done|simpl in *; congruence].
    + rewrite IH. split.
      * intros H e Hin. apply elem_of_cons in Hin as [->|Hin]; [|by apply H].
        left. simpl. destruct (decide (ClusterProvisioner env = "")); [done|by destruct He].
      * intros H e Hin. apply H. by right.
Qed.

Lemma check_environments_Some order msg :
  check_environments order = Some msg ->
  exists name env,
    (name, env) ∈ order
    /\ ClusterProvisioner env <> ""
    /\ ((ProvisionerExists (ClusterProvisioner env) = false
         /\ msg = "configuration file error: environment " +:+ name +:+ "'s"
                  +:+ " clusterProvisioner key must be one of "
                  +:+ Join GetProvisionerNames ", " +:+ " or omitted, was: '"
                  +:+ ClusterProvisioner env +:+ "'")
        \/ (ProvisionerExists (ClusterProvisioner env) = true
            /\ exists err,
                ValidateProvisionerConfig (ClusterProvisioner env)
                                          (ClusterProvisionerArgs env) = Some err
                /\ msg = "configuration file error: arguments provided to provisioner "
                         +:+ name +:+ " of type " +:+ ClusterProvisioner env
                         +:+ " were invalid: " +:+ err)).
Proof.
  induction order as [|[name env] order IH]; simpl; [done|].
  destruct (decide (ClusterProvisioner env <> "")) as [Hne|He].
  - destruct (ProvisionerExists (ClusterProvisioner env)) eqn:Hex; simpl.
    + destruct (ValidateProvisionerConfig _ _) as [err|] eqn:Hv.
      * intros [= <-]. exists name, env. split; [by left|]. split; [done|].
        right. split; [done|]. by exists err.
      * intros H. destruct (IH H) as (n0 & e0 & Hin & Hrest).
        exists n0, e0. split; [by right|exact Hrest].
    + intros [= <-]. exists name, env. split; [by left|]. split; [done|]. by left.
  - intros H. destruct (IH H) as (n0 & e0 & Hin & Hrest).
    exists n0, e0. split; [by right|exact Hrest].
Qed.

(** X14. [Read] returns a configuration exactly when SANIC_CONFIG is set,
    the file it names can be read and parsed, and every environment either
    names no cluster provisioner or names one that exists and accepts its
    arguments. Whether it succeeds does not depend on the order in which the
    environments are checked. *)
Theorem Read_succeeds_iff order sanic_config :
  (forall cfg, order cfg ≡ₚ map_to_list (Environments cfg)) ->
  ((exists cfg', Read order sanic_config = inl cfg')
   <-> sanic_config <> ""
       /\ exists data cfg,
           ReadFile sanic_config = inl data
           /\ Unmarshal data = inl cfg
           /\ forall name env, Environments cfg !! name = Some env -> environment_ok env).
Proof.
  intros Horder. unfold Config.Read, Config.ReadFromPath.
  destruct (decide (sanic_config = "")) as [->|Hne].
  { split; [intros [? [=]]|intros [? _]; done]. }
  destruct (ReadFile sanic_config) as [data|err].
  2:{ split; [intros [? [=]]|intros (_ & ? & ? & [=] & _)]. }
  destruct (Unmarshal data) as [cfg|err] eqn:Hu.
  2:{ split; [intros [? [=]]|]. intros (_ & d & c & [= <-] & Hc & _). congruence. }
  assert (check_environments (order cfg) = None
          <-> forall name env, Environments cfg !! name = Some env -> environment_ok env)
    as Hcheck.
  { rewrite check_environments_None. split.
    - intros H name env Hl. apply (H (name, env)). rewrite Horder.
      by apply elem_of_map_to_list.
    - intros H [name env] Hin. rewrite Horder in Hin.
      apply elem_of_map_to_list in Hin. by apply (H name). }
  destruct (check_environments (order cfg)) as [msg|].
  - split; [intros [? [=]]|]. intros (_ & d & c & [= <-] & Hc & Hall).
    assert (c = cfg) as -> by congruence. by apply Hcheck in Hall.
  - split; [|by eauto]. intros _. split; [done|].
    exists data, cfg. split; [done|]. split; [done|]. by apply Hcheck.
Qed.

(** X15. The configuration [ReadFromPath] returns is the parsed one with
    the two defaults filled in: its deploy folder is the parsed one, or
    "deploy" when that is empty, its templater image the parsed one, or
    "distributedcontainers/templater-golang" when that is empty, so neither
    is ever empty; commands, environments and build options are the parsed
    ones. *)
Theorem ReadFromPath_defaults order configPath cfg' :
  ReadFromPath order configPath = inl cfg' ->
  exists data cfg,
    ReadFile configPath = inl data
    /\ Unmarshal data = inl cfg
    /\ Commands cfg' = Commands cfg
    /\ Environments cfg' = Environments cfg
    /\ Build_ cfg' = Build_ cfg
    /\ Folder (Deploy_ cfg')
       = (if decide (Folder (Deploy_ cfg) = "") then "deploy" else Folder (Deploy_ cfg))
    /\ TemplaterImage (Deploy_ cfg')
       = (if decide (TemplaterImage (Deploy_ cfg) = "")
          then "distributedcontainers/templater-golang"
          else TemplaterImage (Deploy_ cfg))
    /\ Folder (Deploy_ cfg') <> ""
    /\ TemplaterImage (Deploy_ cfg') <> "".
Proof.
  unfold Config.ReadFromPath.
  destruct (ReadFile configPath) as [data|err] eqn:Hr; [|done].
  destruct (Unmarshal data) as [cfg|err] eqn:Hu; [|done].
  destruct (check_environments (order cfg)); [done|]. intros [= <-].
  exists data, cfg. unfold with_defaults. simpl.
  repeat split; try done; by case_decide.
Qed.

(** X16. When the file was read and parsed and [ReadFromPath] still fails,
    its message names an environment of the configuration that is at fault:
    one whose cluster provisioner is not empty and either does not exist, or
    exists and rejects its arguments; the message has the matching one of the
    two formats. *)
Theorem ReadFromPath_error_names_culprit order configPath data cfg msg :
  order cfg ≡ₚ map_to_list (Environments cfg) ->
  ReadFile configPath = inl data ->
  Unmarshal data = inl cfg ->
  ReadFromPath order configPath = inr msg ->
  exists name env,
    Environments cfg !! name = Some env
    /\ ClusterProvisioner env <> ""
    /\ ((ProvisionerExists (ClusterProvisioner env) = false
         /\ msg = "configuration file error: environment " +:+ name +:+ "'s"
                  +:+ " clusterProvisioner key must be one of "
                  +:+ Join GetProvisionerNames ", " +:+ " or omitted, was: '"
                  +:+ ClusterProvisioner env +:+ "'")
        \/ (ProvisionerExists (ClusterProvisioner env) = true
            /\ exists err,
                ValidateProvisionerConfig (ClusterProvisioner env)
                                          (ClusterProvisionerArgs env) = Some err
                /\ msg = "configuration file error: arguments provided to provisioner "
                         +:+ name +:+ " of type " +:+ ClusterProvisioner env
                         +:+ " were invalid: " +:+ err)).
Proof.
  intros Horder Hr Hu. unfold Config.ReadFromPath. rewrite Hr, Hu.
  destruct (check_environments (order cfg)) as [m|] eqn:Hc; [|done].
  intros [= <-]. destruct (check_environments_Some _ _ Hc) as (name & env & Hin & Hrest).
  exists name, env. split; [|exact Hrest].
  rewrite Horder in Hin. by apply elem_of_map_to_list in Hin.
Qed.

(** X17. [CurrentEnvironment] returns an environment exactly when
    [HasEnvironment] holds of the environment the shell is in, and it then
    is the one the configuration stores under that name; otherwise its error
    names that environment and the base name of the project root. *)
Theorem CurrentEnvironment_HasEnvironment cfg s :
  (HasEnvironment cfg (GetSanicEnvironment s) = true
   <-> exists env, CurrentEnvironment cfg s = inl env)
  /\ (forall env, CurrentEnvironment cfg s = inl env
                  <-> Environments cfg !! GetSanicEnvironment s = Some env)
  /\ (HasEnvironment cfg (GetSanicEnvironment s) = false ->
      CurrentEnvironment cfg s
      = inr ("the environment " +:+ GetSanicEnvironment s
             +:+ " does not exist in the project '" +:+ Base (GetSanicRoot s) +:+ "'")).
Proof.
  unfold Config.HasEnvironment, Config.CurrentEnvironment.
  destruct (Environments cfg !! GetSanicEnvironment s) as [env|].
  - split; [split; eauto|]. split; [|done]. intros e. split; congruence.
  - split; [split; [done|intros [? [=]]]|]. split; [|done]. intros e. split; done.
Qed.

End ConfigProperties.

Lemma Read_succeeds_iff_witness :
  (forall cfg, ConfigSample.order cfg ≡ₚ map_to_list (Config.Environments cfg))
  /\ exists cfg',
      Config.Read ConfigSample.exists_ ConfigSample.names ConfigSample.validate
                  ConfigSample.read_file ConfigSample.unmarshal ConfigSample.order
                  "sanic.yaml" = inl cfg'.
Proof.
  split; [done|].
  apply (Read_succeeds_iff ConfigSample.exists_ ConfigSample.names ConfigSample.validate
           ConfigSample.read_file ConfigSample.unmarshal ConfigSample.order "sanic.yaml");
    [done|].
  split; [done|]. exists "good", ConfigSample.good. split; [done|]. split; [done|].
  intros name env Hl. apply elem_of_map_to_list in Hl.
  assert (Forall (fun e => Config.environment_ok ConfigSample.exists_ ConfigSample.validate e.2)
                 (map_to_list (Config.Environments ConfigSample.good))) as Hall.
  { vm_compute map_to_list.
    repeat (constructor; [first [by left | by right]|]). constructor. }
  rewrite Forall_forall in Hall. apply (Hall (name, env) Hl).
Defined.

Lemma ReadFromPath_defaults_witness :
  Config.ReadFromPath ConfigSample.exists_ ConfigSample.names ConfigSample.validate
                      ConfigSample.read_file ConfigSample.unmarshal ConfigSample.order
                      "sanic.yaml"
  = inl (Config.with_defaults ConfigSample.good)
  /\ Config.Folder (Config.Deploy_ (Config.with_defaults ConfigSample.good)) = "deploy"
  /\ Config.TemplaterImage (Config.Deploy_ (Config.with_defaults ConfigSample.good))
     = "my/templater".
Proof.
  assert (Config.ReadFromPath ConfigSample.exists_ ConfigSample.names ConfigSample.validate
            ConfigSample.read_file ConfigSample.unmarshal ConfigSample.order "sanic.yaml"
          = inl (Config.with_defaults ConfigSample.good)) as H
      by (vm_compute; reflexivity).
  split; [exact H|].
  destruct (ReadFromPath_defaults ConfigSample.exists_ ConfigSample.names
              ConfigSample.validate ConfigSample.read_file ConfigSample.unmarshal
              ConfigSample.order "sanic.yaml" _ H)
    as (data & cfg & Hr & Hu & _ & _ & _ & Hf & Ht & _).
  injection Hr as <-. injection Hu as <-. split; [exact Hf|exact Ht].
Defined.

Lemma ReadFromPath_error_names_culprit_witness :
  ConfigSample.order ConfigSample.bad ≡ₚ map_to_list (Config.Environments ConfigSample.bad)
  /\ ConfigSample.read_file "bad.yaml" = inl "bad"
  /\ ConfigSample.unmarshal "bad" = inl ConfigSample.bad
  /\ Config.ReadFromPath ConfigSample.exists_ ConfigSample.names ConfigSample.validate
                         ConfigSample.read_file ConfigSample.unmarshal ConfigSample.order
                         "bad.yaml"
     = inr "configuration file error: arguments provided to provisioner prod of type external were invalid: kubeConfig is required"
  /\ exists name env,
      Config.Environments ConfigSample.bad !! name = Some env
      /\ Config.ClusterProvisioner env <> "".
Proof.
  assert (Config.ReadFromPath ConfigSample.exists_ ConfigSample.names ConfigSample.validate
            ConfigSample.read_file ConfigSample.unmarshal ConfigSample.order "bad.yaml"
          = inr "configuration file error: arguments provided to provisioner prod of type external were invalid: kubeConfig is required")
    as H by (vm_compute; reflexivity).
  split; [reflexivity|]. split; [reflexivity|]. split; [reflexivity|]. split; [exact H|].
  destruct (ReadFromPath_error_names_culprit ConfigSample.exists_ ConfigSample.names
              ConfigSample.validate ConfigSample.read_file ConfigSample.unmarshal
              ConfigSample.order "bad.yaml" "bad" ConfigSample.bad _
              (Permutation_refl _) eq_refl eq_refl H) as (name & env & Hl & Hne & _).
  exists name, env. split; assumption.
Defined.

(** * Starting a job again *)

Lemma FailJob_known_ok key text s :
  mutex s = false -> is_Some (jobs s !! key) ->
  exists s', FailJob key (Some text) s = (Ok tt, s') /\ mutex s' = false.
Proof.
  intros Hm [job Hj]. rewrite (FailJob_known _ _ _ job) by assumption.
  eexists. split; [reflexivity|]. by destruct s.
Qed.

(** X18. [StartJob] stores a new job under its key whatever was there: it
    is building, not pushing, without log lines, with the image given; every
    other job is left as it is, and the registry grows by one job exactly
    when the key is new. So starting a key again forgets the status, the
    pushing flag and the log of the job it had. *)
Theorem StartJob_replaces key image s :
  mutex s = false ->
  (StartJob key image s).1 = Ok tt
  /\ jobs (StartJob key image s).2 !! key
     = Some (mkJob (CreateStringRingBuffer 20) 0 "" false image key)
  /\ (forall k, k <> key -> jobs (StartJob key image s).2 !! k = jobs s !! k)
  /\ size (jobs (StartJob key image s).2)
     = match jobs s !! key with
       | Some _ => size (jobs s)
       | None => S (size (jobs s))
       end
  /\ (forall err,
        (status <$> jobs ((FailJob key err ;; StartJob key image) (StartJob key image s).2).2
                    !! key)
        = Some "").
Proof.
  intros Hm. rewrite StartJob_run by assumption. cbn [fst snd].
  set (nj := mkJob (CreateStringRingBuffer 20) 0 "" false image key).
  set (s1 := set_jobs (insert key nj) s).
  assert (jobs s1 = <[key := nj]> (jobs s)) as Hj by (by destruct s).
  assert (mutex s1 = false) as Hm1 by (by destruct s).
  rewrite Hj. split; [done|]. split; [apply lookup_insert_eq|].
  split; [intros k Hk; by rewrite lookup_insert_ne|]. split.
  - destruct (jobs s !! key) as [j|] eqn:E.
    + rewrite <- (insert_delete_id (jobs s) key j E) at 2.
      rewrite <- insert_delete_eq.
      by rewrite !map_size_insert_None by apply lookup_delete_eq.
    + by apply map_size_insert_None.
  - intros [text|].
    + destruct (FailJob_known_ok key text s1 Hm1) as [s2 [Hrun Hm2]].
      { rewrite Hj. rewrite lookup_insert_eq. eauto. }
      unfold bind. rewrite Hrun. rewrite StartJob_run by assumption. cbn [fst snd].
      destruct s2; simpl. by rewrite lookup_insert_eq.
    + unfold bind. rewrite FailJob_nil. cbn [fst snd].
      rewrite Hj. by rewrite lookup_insert_eq.
Qed.

Lemma StartJob_replaces_witness :
  mutex demo = false
  /\ (status <$> jobs demo !! "A") = Some "failed"
  /\ (status <$> jobs (StartJob "A" "img-a2" demo).2 !! "A") = Some ""
  /\ size (jobs (StartJob "A" "img-a2" demo).2) = 3%nat.
Proof.
  split; [reflexivity|]. split; [reflexivity|].
  destruct (StartJob_replaces "A" "img-a2" demo eq_refl) as (_ & H1 & _ & H2 & _).
  rewrite H1, H2. split; reflexivity.
Defined.
